(** * Expression classification of emoji-smile-mirror (src/app.js)

    A shallow embedding of the decision logic of [src/app.js]: the
    blendshape mapping built by [blendMap], the baseline written by
    [calibrate] and the scoring and selection done by [pickEmoji].

    JavaScript numbers are IEEE 754 binary64 values, so they are modelled by
    Rocq's primitive [float], whose operations are specified bit for bit by
    [SpecFloat].  Objects used as dictionaries are finite maps from strings.

    The file has two parts: the definitions (the program, the selection as
    the specification words it, the predicates the theorems are stated
    with, and the arithmetic notions the proofs use), then the proofs. *)

From Stdlib Require Import ZArith Lia Bool List.
From Stdlib Require Import Floats.
From stdpp Require Import base option gmap strings fin_maps.

(* Decimal literals denote the nearest binary64 value, as in JavaScript. *)
#[global] Set Warnings "-inexact-float".

Local Open Scope float_scope.

(** * Part I: definitions *)

(** ** JavaScript values used by the program *)

(** A blendshape object: own string keys holding numbers. *)
Abbreviation Blend := (gmap string float).

(** [v ?? d]: the left operand unless it is [undefined] or [null].  A
    property that is absent reads as [undefined], modelled by [None]. *)
Definition nullish_or (v : option float) (d : float) : float :=
  match v with
  | Some x => x
  | None => d
  end.

Infix "??" := nullish_or (at level 45, left associativity).

(** [Math.max] at two arguments: [NaN] if either is [NaN], the larger one
    otherwise, with [+0] above [-0]. *)
Definition Math_max (a b : float) : float :=
  if is_nan a || is_nan b then nan
  else if a <? b then b
  else if b <? a then a
  else if get_sign a then b else a.

(** [x > y] of JavaScript on numbers. *)
Definition gt (x y : float) : bool := y <? x.

(** ** Constant tables *)

Inductive Expression : Set :=
  | neutral
  | smile
  | surprise
  | frown
  | cheeky.

#[global] Instance Expression_eq_dec : EqDecision Expression.
Proof. solve_decision. Defined.

Definition EMOJI_SET (e : Expression) : string :=
  match e with
  | neutral => "😐"
  | smile => "🙂"
  | surprise => "😮"
  | frown => "😡"
  | cheeky => "😜"
  end.

(** [EMOTION_THRESHOLDS[expression]]: the table has no [neutral] key. *)
Definition EMOTION_THRESHOLDS (e : Expression) : option float :=
  match e with
  | neutral => None
  | smile => Some 0.25
  | surprise => Some 0.28
  | frown => Some 0.2
  | cheeky => Some 0.22
  end.

(** ** blendMap *)

Record Category := { categoryName : string; score : float }.

(** The classifications of one face; the field may be absent. *)
Record Blendshapes := { categories : option (list Category) }.

(** [blendshapes?.categories ?? []] *)
Definition categories_or_empty (blendshapes : option Blendshapes) : list Category :=
  match blendshapes with
  | Some bs => match categories bs with Some cs => cs | None => [] end
  | None => []
  end.

(** The loop assigns [out[cat.categoryName] = cat.score] for each category
    in turn, so a later category of the same name overwrites an earlier. *)
Definition blendMap (blendshapes : option Blendshapes) : Blend :=
  fold_left (fun out cat => <[categoryName cat := score cat]> out)
            (categories_or_empty blendshapes) ∅.

(** ** Application state and calibrate *)

(** The module-level [baseline] ([None] is [null]) and the messages drawn
    by [flash], oldest first. *)
Record State := { baseline : option Blend; flashed : list string }.

Definition initial_state : State := {| baseline := None; flashed := [] |}.

Definition flash (text : string) (st : State) : State :=
  {| baseline := baseline st; flashed := flashed st ++ [text] |}.

(** [if (!blend) return;] then [baseline = { ...blend }]: the spread copies
    the own properties into a fresh object; maps are values here, so the
    copy is the map itself. *)
Definition calibrate (blend : option Blend) (st : State) : State :=
  match blend with
  | None => st
  | Some blend =>
      flash "Calibrated! Try smiling or opening your mouth."
            {| baseline := Some blend; flashed := flashed st |}
  end.

(** ** pickEmoji *)

Section PickEmoji.
(** The value of the global [baseline] and the non-null argument. *)
Variable baseline_ : option Blend.
Variable blend : Blend.

(** [const b = baseline || {}] *)
Definition b : Blend :=
  match baseline_ with
  | Some m => m
  | None => ∅
  end.

Definition get (key : string) : float :=
  (blend !! key ?? 0) - (b !! key ?? 0).

(** The object literal [expressionScores], as [Object.entries] lists it:
    string keys in insertion order.  [get] returns a number, which [??]
    leaves as it is. *)
Definition expressionScores : list (Expression * float) :=
  [ (smile, Math_max (get "mouthSmileLeft") (get "mouthSmileRight"));
    (surprise, get "jawOpen" * 0.9 + get "mouthPucker" * 0.4);
    (frown, Math_max (get "mouthFrownLeft") (get "mouthFrownRight"));
    (cheeky, Math_max (get "cheekPuffLeft") (get "cheekPuffRight")
             + (Some (get "tongueOut") ?? 0)) ].

(** [score > threshold]; an absent threshold is [undefined], which
    compares as [NaN]. *)
Definition above_threshold (s : float) (threshold : option float) : bool :=
  match threshold with
  | Some t => gt s t
  | None => false
  end.

(** One iteration of the [for] loop over the entries. *)
Definition loop_body (acc : Expression * float) (entry : Expression * float)
  : Expression * float :=
  let '(bestExpression, bestScore) := acc in
  let '(expression, s) := entry in
  let threshold := EMOTION_THRESHOLDS expression in
  if above_threshold s threshold && gt s bestScore
  then (expression, s)
  else (bestExpression, bestScore).

(** The value of [bestExpression] when the loop ends. *)
Definition bestExpression : Expression :=
  fst (fold_left loop_body expressionScores (neutral, 0.15)).
End PickEmoji.

(** [pickEmoji(blend)], reading the global [baseline] from the state. *)
Definition pickEmoji (st : State) (blend : option Blend) : string :=
  match blend with
  | None => EMOJI_SET neutral
  | Some blend => EMOJI_SET (bestExpression (baseline st) blend)
  end.

(** [expressionScores[e]]: the value an entry list holds for a key. *)
Fixpoint entry_score (e : Expression) (entries : list (Expression * float)) : option float :=
  match entries with
  | [] => None
  | (e', s) :: rest => if decide (e' = e) then Some s else entry_score e rest
  end.

(** ** The selection as the specification words it *)

Module Spec.
(** Current minus baseline, a channel absent from either vector (or an
    absent baseline) counting as 0. *)
Definition delta (current : Blend) (baseline_ : option Blend) (key : string) : float :=
  default 0 (current !! key) - default 0 (baseline_ ≫= (.!! key)).

Section Scores.
Variable current : Blend.
Variable baseline_ : option Blend.

Definition smile_score : float :=
  Math_max (delta current baseline_ "mouthSmileLeft")
           (delta current baseline_ "mouthSmileRight").

Definition surprise_score : float :=
  delta current baseline_ "jawOpen" * 0.9 + delta current baseline_ "mouthPucker" * 0.4.

Definition frown_score : float :=
  Math_max (delta current baseline_ "mouthFrownLeft")
           (delta current baseline_ "mouthFrownRight").

Definition cheeky_score : float :=
  Math_max (delta current baseline_ "cheekPuffLeft")
           (delta current baseline_ "cheekPuffRight")
  + delta current baseline_ "tongueOut".

(** Category, score and threshold, in the order of iteration. *)
Definition rules : list (Expression * float * float) :=
  [ (smile, smile_score, 0.25);
    (surprise, surprise_score, 0.28);
    (frown, frown_score, 0.2);
    (cheeky, cheeky_score, 0.22) ].
End Scores.

(** A category becomes the best when its score is above its threshold and
    above the best score so far. *)
Definition visit (acc : Expression * float) (rule : Expression * float * float)
  : Expression * float :=
  let '(category, s, threshold) := rule in
  if (threshold <? s) && (snd acc <? s) then (category, s) else acc.

Definition select (rs : list (Expression * float * float)) : Expression :=
  fst (fold_left visit rs (neutral, 0.15)).
End Spec.

(** ** Predicates and inputs of the theorems *)

(** Every channel a vector holds is 0, of either sign. *)
Definition all_zero (z : Blend) : Prop :=
  forall (key : string) (v : float), z !! key = Some v -> (v =? 0) = true.

(** Every channel a vector holds is at least 0. *)
Definition nonnegative (m : Blend) : Prop :=
  forall (key : string) (v : float), m !! key = Some v -> (0 <=? v) = true.

(** Every channel a vector holds is a finite number: not [NaN] and not an
    infinity.  Scores between 0 and 1 are. *)
Definition finite_channels (m : Blend) : Prop :=
  forall (key : string) (v : float), m !! key = Some v -> is_finite v = true.

(** The place of a category in the order of iteration. *)
Definition rank (e : Expression) : nat :=
  match e with
  | neutral => 0
  | smile => 1
  | surprise => 2
  | frown => 3
  | cheeky => 4
  end.

Section Ties.
Variable st : State.
Variable current : Blend.

(** Category [c] has score [s], above its threshold and above 0.15. *)
Definition qualifies (c : Expression) (s : float) : Prop :=
  In (c, s) (expressionScores (baseline st) current) /\
  above_threshold s (EMOTION_THRESHOLDS c) = true /\
  (0.15 <? s) = true.

(** [c] and [d] tie on a qualifying score, and [c] is the earliest
    category with that score. *)
Definition earliest_of_tie (c d : Expression) (sc sd : float) : Prop :=
  qualifies c sc /\ qualifies d sd /\ (rank c < rank d)%nat /\
  (sc =? sd) = true /\
  (forall e se, qualifies e se -> (rank e < rank c)%nat -> (se =? sc) = false).

(** The tie-break claim read literally: the earliest category of any tie
    is the one selected. *)
Definition every_tie_selects_earliest : Prop :=
  forall c d sc sd, earliest_of_tie c d sc sd ->
    pickEmoji st (Some current) = EMOJI_SET c.

(** No qualifying score is above [s]. *)
Definition is_highest (s : float) : Prop :=
  forall e se, qualifies e se -> (se <=? s) = true.
End Ties.

(** Smile and frown tie on 0.5 while cheeky scores 0.9. *)
Definition tie_below_best : Blend :=
  <["mouthSmileLeft" := 0.5]> (<["mouthFrownLeft" := 0.5]> (<["cheekPuffLeft" := 0.9]> ∅)).

(** A tie on the highest score: smile and surprise both score 0.40. *)
Definition tie_at_best : Blend :=
  <["mouthSmileLeft" := 0.40]> (<["jawOpen" := 0.40 / 0.9]> ∅).

(** A calibrated state whose baseline is zero on two channels: [0] on one
    and [-0] on the other. *)
Definition zero_baseline : Blend :=
  <["mouthSmileLeft" := 0]> (<["jawOpen" := neg_zero]> ∅).

Definition zero_state : State := {| baseline := Some zero_baseline; flashed := [] |}.

(** A calibrated state with a resting smile of 0.2. *)
Definition resting_state : State :=
  {| baseline := Some (<["mouthSmileLeft" := 0.2]> ∅); flashed := [] |}.

(** A half smile on the left, and a wider one. *)
Definition half_smile : Blend := <["mouthSmileLeft" := 0.3]> (<["mouthSmileRight" := 0.1]> ∅).

Definition wide_smile : Blend := <["mouthSmileLeft" := 0.7]> (<["mouthSmileRight" := 0.1]> ∅).

(** ** Notions used by the proofs about binary64 arithmetic *)

(** The comparisons of [float] read through [SFcompare]. *)
Definition cmp (x y : float) : option comparison :=
  SFcompare (Prim2SF x) (Prim2SF y).

(** Zero of either sign, a negative finite value or minus infinity. *)
Definition SFnonpos (x : spec_float) : Prop :=
  match x with
  | S754_zero _ => True
  | S754_infinity s => s = true
  | S754_nan => False
  | S754_finite s _ _ => s = true
  end.

Definition SFnonneg (x : spec_float) : Prop :=
  match x with
  | S754_zero _ => True
  | S754_infinity s => s = false
  | S754_nan => False
  | S754_finite s _ _ => s = false
  end.

(** The sign of a value that is not [NaN]. *)
Definition has_sign (sx : bool) (x : spec_float) : Prop :=
  match x with
  | S754_zero s | S754_infinity s | S754_finite s _ _ => s = sx
  | S754_nan => False
  end.

(** The same number: equal, or zeros of either sign. *)
Definition SFsame (x y : spec_float) : Prop :=
  x = y \/ exists s s', x = S754_zero s /\ y = S754_zero s'.

Definition same_number (x y : float) : Prop := SFsame (Prim2SF x) (Prim2SF y).

(** Rounding to nearest, read on integers: a finite value is an integer
    multiple of 2 to the least exponent, and is measured in that unit. *)
Module Round.
Local Open Scope Z_scope.

(** The quotient [q] of a division by [p] with remainder [rem], rounded to
    the nearest integer, a tie going to the even one. *)
Definition round_even (q rem p : Z) : Z :=
  if 2 * rem <? p then q
  else if p <? 2 * rem then q + 1
  else if Z.even q then q else q + 1.

(** After [j] halvings of [m], the record holds the quotient by [2^j] and
    knows how the remainder compares with half of [2^j]. *)
Definition shr_state (m j : Z) (mrs : shr_record) : Prop :=
  exists rem,
    0 <= rem < 2 ^ j /\
    m = shr_m mrs * 2 ^ j + rem /\
    shr_r mrs = (2 ^ j <=? 2 * rem) /\
    shr_s mrs = negb (rem =? 0) && negb (2 * rem =? 2 ^ j).

Definition finite_or_zero (x : spec_float) : Prop :=
  match x with
  | S754_zero _ | S754_finite _ _ _ => True
  | _ => False
  end.

Section Format.
Variables prec emax : Z.

(** The exponent, above the least one, of the grid a positive value is
    rounded on. *)
Definition grid (v : Z) : Z := Z.max (Z.log2 v + 1 - prec) 0.

(** A positive value rounded on its grid. *)
Definition nearest (v : Z) : Z :=
  let p := 2 ^ grid v in
  round_even (v / p) (v mod p) p * p.

Definition nearest_signed (v : Z) : Z :=
  if 0 <? v then nearest v
  else if v <? 0 then - nearest (- v)
  else 0.

(** A mantissa at an exponent, in units of the least exponent. *)
Definition scaled (m : positive) (e : Z) : Z :=
  Zpos m * 2 ^ (e - SpecFloat.emin prec emax).

Definition SFvalue (x : spec_float) : Z :=
  match x with
  | S754_finite s m e => cond_Zopp s (scaled m e)
  | _ => 0
  end.

(** The result of rounding a positive value [w] is [r]: the sign it was
    given and the value, or an infinity when the value is out of range. *)
Definition rounds_to (sx : bool) (w : Z) (r : spec_float) : Prop :=
  match r with
  | S754_finite s m e => s = sx /\ SpecFloat.emin prec emax <= e /\ scaled m e = w
  | S754_infinity s => s = sx /\ 2 ^ (emax - SpecFloat.emin prec emax) <= w
  | _ => False
  end.

(** [r] is the rounding of the exact value [v]. *)
Definition rounding_of (v : Z) (r : spec_float) : Prop :=
  match r with
  | S754_zero _ => nearest_signed v = 0
  | S754_finite s m e =>
      SpecFloat.emin prec emax <= e /\ cond_Zopp s (scaled m e) = nearest_signed v
  | S754_infinity s =>
      2 ^ (emax - SpecFloat.emin prec emax) <= cond_Zopp s (nearest_signed v)
  | S754_nan => False
  end.
End Format.
End Round.

(** ** Notions used by the further properties *)


(** A blendshapes value that holds the given categories. *)
Definition with_categories (cats : list Category) : option Blendshapes :=
  Some {| categories := Some cats |}.

(** The channels [pickEmoji] reads. *)
Definition channels : list string :=
  [ "mouthSmileLeft"; "mouthSmileRight"; "jawOpen"; "mouthPucker";
    "mouthFrownLeft"; "mouthFrownRight"; "cheekPuffLeft"; "cheekPuffRight";
    "tongueOut" ].

(** [NaN], or a zero of either sign. *)
Definition zero_or_nan (x : float) : Prop :=
  is_nan x = true \/ (x =? 0) = true.

(** A run of [calibrate] calls, in order. *)
Definition calibrate_all (vs : list (option Blend)) (st : State) : State :=
  fold_left (fun st v => calibrate v st) vs st.

(** ** The handlers and the animation loop

    The rest of [src/app.js] drives the classifier: the click handlers of
    the start and calibrate buttons and the function [loop] that
    [requestAnimationFrame] calls back.  The model keeps the module-level
    variables, the [disabled] flags the handlers write, and a log of what is
    handed to [drawEmoji] and [alert].  Pixels are not modelled: the canvas
    calls of [drawEmoji], [flash], [drawPrivacyOverlay] and [ctx.drawImage]
    appear only through these logs.

    What the collaborators return is an input of each step: whether
    [setupModel] and [setupCamera] settle or throw, and, for a frame,
    either the value of [result?.faceBlendshapes?.[0]] or an exception out
    of the body. *)

(** Where the click handler of the start button is suspended. *)
Inductive Phase : Set :=
  | Idle
  | AwaitModel
  | AwaitCamera.

#[global] Instance Phase_eq_dec : EqDecision Phase.
Proof. solve_decision. Defined.

(** What a detection gives: an exception, or the blendshapes of the first
    face, absent when no face is found. *)
Inductive Frame : Type :=
  | Throws
  | Detected (face : option Blendshapes).

Record App := {
  core : State;                  (* [baseline], and the messages flashed *)
  video : bool;                  (* [video] is not null *)
  landmarker : bool;             (* [landmarker] is not null *)
  running : bool;
  btnStart_disabled : bool;
  btnCalibrate_disabled : bool;
  phase : Phase;
  scheduled : nat;               (* callbacks of [requestAnimationFrame(loop)] not yet run *)
  drawn : list string;           (* the arguments of [drawEmoji], oldest first *)
  alerts : nat                   (* the calls of [alert] *)
}.

(** The page as the script finds it; the markup, which is not part of the
    script, decides whether the calibrate button starts disabled. *)
Definition boot (calibrate_disabled : bool) : App :=
  {| core := initial_state; video := false; landmarker := false; running := false;
     btnStart_disabled := false; btnCalibrate_disabled := calibrate_disabled;
     phase := Idle; scheduled := 0; drawn := []; alerts := 0 |}.

Definition set_core (st : State) (a : App) : App :=
  {| core := st; video := video a; landmarker := landmarker a; running := running a;
     btnStart_disabled := btnStart_disabled a;
     btnCalibrate_disabled := btnCalibrate_disabled a;
     phase := phase a; scheduled := scheduled a; drawn := drawn a; alerts := alerts a |}.

Definition set_scheduled (n : nat) (a : App) : App :=
  {| core := core a; video := video a; landmarker := landmarker a; running := running a;
     btnStart_disabled := btnStart_disabled a;
     btnCalibrate_disabled := btnCalibrate_disabled a;
     phase := phase a; scheduled := n; drawn := drawn a; alerts := alerts a |}.

Definition drawEmoji (emoji : string) (a : App) : App :=
  {| core := core a; video := video a; landmarker := landmarker a; running := running a;
     btnStart_disabled := btnStart_disabled a;
     btnCalibrate_disabled := btnCalibrate_disabled a;
     phase := phase a; scheduled := scheduled a; drawn := drawn a ++ [emoji];
     alerts := alerts a |}.

Definition requestAnimationFrame (a : App) : App := set_scheduled (S (scheduled a)) a.

(** [loop()]; [None] when an exception leaves the body: it comes out of
    [ctx.drawImage] or [detectForVideo], before [drawEmoji] and
    [requestAnimationFrame] are reached. *)
Definition loop (f : Frame) (a : App) : option App :=
  if negb (running a) then Some a
  else if video a && landmarker a then
    match f with
    | Throws => None
    | Detected face =>
        Some (requestAnimationFrame
                (drawEmoji (pickEmoji (core a) (Some (blendMap face))) a))
    end
  else Some (requestAnimationFrame a).

(** [btnCalibrate.onclick] *)
Definition btnCalibrate_onclick (f : Frame) (a : App) : App :=
  if negb (landmarker a) || negb (video a) then a
  else
    match f with
    | Throws => a
    | Detected face => set_core (calibrate (Some (blendMap face)) (core a)) a
    end.

(** [btnStart.onclick], up to its first [await]. *)
Definition btnStart_onclick (a : App) : App :=
  {| core := core a; video := video a; landmarker := landmarker a; running := running a;
     btnStart_disabled := true;
     btnCalibrate_disabled := btnCalibrate_disabled a;
     phase := AwaitModel; scheduled := scheduled a; drawn := drawn a; alerts := alerts a |}.

(** The [catch] branch of [btnStart.onclick]. *)
Definition start_failed (a : App) : App :=
  {| core := core a; video := video a; landmarker := landmarker a; running := running a;
     btnStart_disabled := false;
     btnCalibrate_disabled := btnCalibrate_disabled a;
     phase := Idle; scheduled := scheduled a; drawn := drawn a; alerts := S (alerts a) |}.

(** [await setupModel()] settles: [landmarker] is assigned, and
    [setupCamera()] runs to its first [await]; or it throws. *)
Definition setupModel_settled (ok : bool) (a : App) : App :=
  if ok then
    {| core := core a; video := video a; landmarker := true; running := running a;
       btnStart_disabled := btnStart_disabled a;
       btnCalibrate_disabled := btnCalibrate_disabled a;
       phase := AwaitCamera; scheduled := scheduled a; drawn := drawn a;
       alerts := alerts a |}
  else start_failed a.

(** [await setupCamera()] settles: [video] is assigned, then [running = true],
    the calibrate button is enabled and [loop()] is called, inside the
    [try]; or it throws. *)
Definition setupCamera_settled (ok : bool) (f : Frame) (a : App) : App :=
  if ok then
    let a1 :=
      {| core := core a; video := true; landmarker := landmarker a; running := true;
         btnStart_disabled := btnStart_disabled a;
         btnCalibrate_disabled := false;
         phase := Idle; scheduled := scheduled a; drawn := drawn a;
         alerts := alerts a |} in
    match loop f a1 with
    | Some a2 => a2
    | None => start_failed a1
    end
  else start_failed a.

(** What can happen to the page.  A click reaches a handler only while its
    button is enabled, a settlement only the handler that awaits it, and an
    animation frame only a callback that was scheduled. *)
Inductive Event : Type :=
  | StartClicked
  | ModelSettled (ok : bool)
  | CameraSettled (ok : bool) (f : Frame)
  | CalibrateClicked (f : Frame)
  | AnimationFrame (f : Frame).

Definition step (e : Event) (a : App) : option App :=
  match e with
  | StartClicked =>
      if btnStart_disabled a then None else Some (btnStart_onclick a)
  | ModelSettled ok =>
      match phase a with
      | AwaitModel => Some (setupModel_settled ok a)
      | _ => None
      end
  | CameraSettled ok f =>
      match phase a with
      | AwaitCamera => Some (setupCamera_settled ok f a)
      | _ => None
      end
  | CalibrateClicked f =>
      if btnCalibrate_disabled a then None else Some (btnCalibrate_onclick f a)
  | AnimationFrame f =>
      match scheduled a with
      | O => None
      | S n =>
          let a1 := set_scheduled n a in
          match loop f a1 with
          | Some a2 => Some a2
          | None => Some a1
          end
      end
  end.

(** A sequence of events, from a state. *)
Fixpoint run (es : list Event) (a : App) : option App :=
  match es with
  | [] => Some a
  | e :: rest =>
      match step e a with
      | Some a' => run rest a'
      | None => None
      end
  end.

(** What holds of every state the page can be in. *)
Definition consistent (a : App) : Prop :=
  (running a = true -> video a = true /\ landmarker a = true) /\
  (phase a = AwaitCamera -> landmarker a = true) /\
  (scheduled a <= 1)%nat /\
  (scheduled a = 1%nat ->
     running a = true /\ btnStart_disabled a = true /\ phase a = Idle) /\
  (phase a <> Idle -> btnStart_disabled a = true /\ scheduled a = 0%nat).

(** A start that fails at the camera, a second one that succeeds and a
    frame, all with a smile in view; then a calibration on the smile and a
    frame after it. *)
Definition smiling : option Blendshapes :=
  with_categories [ {| categoryName := "mouthSmileLeft"; score := 0.6 |} ].

Definition warm_up : list Event :=
  [ StartClicked; ModelSettled true; CameraSettled false Throws;
    StartClicked; ModelSettled true; CameraSettled true (Detected smiling);
    AnimationFrame (Detected smiling) ].

Definition session : list Event :=
  warm_up ++ [ CalibrateClicked (Detected smiling); AnimationFrame (Detected smiling) ].

(** No animation frame is pending and none can be asked for. *)
Definition stopped (a : App) : Prop :=
  scheduled a = 0%nat /\ btnStart_disabled a = true /\ phase a = Idle.


(** A smile, and the same with a zero written out and a channel that
    [pickEmoji] does not read. *)
Definition bare_smile : Blend := <["mouthSmileLeft" := 0.6]> ∅.

Definition padded_smile : Blend :=
  <["mouthSmileLeft" := 0.6]> (<["jawOpen" := 0]> (<["browDownLeft" := 0.9]> ∅)).

(** A calibration that holds a zero on one channel and a value on a name
    that [pickEmoji] does not read. *)
Definition off_channel_state : State :=
  {| baseline := Some (<["mouthSmileLeft" := 0]> (<["browDownLeft" := 0.5]> ∅));
     flashed := ["Calibrated! Try smiling or opening your mouth."] |}.

(** * Part II: proofs *)

(** ** The order of binary64 values

    [SFcompare] orders the values that are not [NaN]: infinities at the
    ends, the two zeros together, finite values by sign, then exponent, then
    mantissa. *)

Module FloatOrder.

Ltac split_compare :=
  repeat match goal with
    | H : context [Z.compare ?a ?b] |- _ => destruct (Z.compare_spec a b)
    | |- context [Z.compare ?a ?b] => destruct (Z.compare_spec a b)
    | H : context [Pos.compare_cont Eq ?a ?b] |- _ =>
        change (Pos.compare_cont Eq a b) with (Pos.compare a b) in H
    | |- context [Pos.compare_cont Eq ?a ?b] =>
        change (Pos.compare_cont Eq a b) with (Pos.compare a b)
    | H : context [Pos.compare ?a ?b] |- _ => destruct (Pos.compare_spec a b)
    | |- context [Pos.compare ?a ?b] => destruct (Pos.compare_spec a b)
    end.

Ltac by_cases :=
  repeat match goal with
    | x : spec_float |- _ => destruct x as [[]|[]| |[] ? ?]
    end;
  cbn [SFcompare SFltb SFleb SFeqb CompOpp] in *;
  try reflexivity; try discriminate;
  split_compare; cbn [CompOpp] in *;
  subst; try reflexivity; try discriminate; try lia.

Lemma SFcompare_antisym (x y : spec_float) :
  SFcompare y x = option_map CompOpp (SFcompare x y).
Proof. by_cases. Qed.

Lemma SFcompare_lt_trans (x y z : spec_float) :
  SFcompare x y = Some Lt -> SFcompare y z = Some Lt -> SFcompare x z = Some Lt.
Proof. intros Hxy Hyz. by_cases. Qed.

Lemma SFcompare_eq_l (x y z : spec_float) :
  SFcompare x y = Some Eq -> SFcompare x z = SFcompare y z.
Proof. intros Hxy. by_cases. Qed.

Lemma SFcompare_refl (x : spec_float) :
  x <> S754_nan -> SFcompare x x = Some Eq.
Proof.
  intros Hx. destruct x as [[]|[]| |[] ? ?]; cbn; try reflexivity; try congruence;
    rewrite Z.compare_refl, Pos.compare_cont_refl; reflexivity.
Qed.

Lemma ltb_cmp (x y : float) : (x <? y) = true <-> cmp x y = Some Lt.
Proof.
  rewrite FloatAxioms.ltb_spec. unfold SFltb, cmp.
  destruct (SFcompare _ _) as [[]|]; split; congruence.
Qed.

Lemma ltb_false_cmp (x y : float) : (x <? y) = false <-> cmp x y <> Some Lt.
Proof.
  rewrite FloatAxioms.ltb_spec. unfold SFltb, cmp.
  destruct (SFcompare _ _) as [[]|]; split; congruence.
Qed.

Lemma leb_cmp (x y : float) :
  (x <=? y) = true <-> cmp x y = Some Lt \/ cmp x y = Some Eq.
Proof.
  rewrite FloatAxioms.leb_spec. unfold SFleb, cmp.
  destruct (SFcompare _ _) as [[]|]; split; intros; try tauto; try congruence;
    destruct H; congruence.
Qed.

Lemma eqb_cmp (x y : float) : (x =? y) = true <-> cmp x y = Some Eq.
Proof.
  rewrite FloatAxioms.eqb_spec. unfold SFeqb, cmp.
  destruct (SFcompare _ _) as [[]|]; split; congruence.
Qed.

Lemma cmp_antisym (x y : float) : cmp y x = option_map CompOpp (cmp x y).
Proof. apply SFcompare_antisym. Qed.

Lemma cmp_lt_trans (x y z : float) :
  cmp x y = Some Lt -> cmp y z = Some Lt -> cmp x z = Some Lt.
Proof. apply SFcompare_lt_trans. Qed.

Lemma cmp_eq_l (x y z : float) : cmp x y = Some Eq -> cmp x z = cmp y z.
Proof. apply SFcompare_eq_l. Qed.

Lemma cmp_eq_r (x y z : float) : cmp y z = Some Eq -> cmp x y = cmp x z.
Proof.
  intros H. rewrite (cmp_antisym y x), (cmp_antisym z x).
  f_equal. symmetry. apply cmp_eq_l.
  rewrite cmp_antisym, H. reflexivity.
Qed.

Lemma ltb_trans (x y z : float) :
  (x <? y) = true -> (y <? z) = true -> (x <? z) = true.
Proof. rewrite !ltb_cmp. apply cmp_lt_trans. Qed.

Lemma leb_ltb_trans (x y z : float) :
  (x <=? y) = true -> (y <? z) = true -> (x <? z) = true.
Proof.
  rewrite leb_cmp, !ltb_cmp. intros [H|H] Hyz.
  - eapply cmp_lt_trans; eassumption.
  - rewrite (cmp_eq_l _ _ _ H). assumption.
Qed.

Lemma ltb_leb_trans (x y z : float) :
  (x <? y) = true -> (y <=? z) = true -> (x <? z) = true.
Proof.
  rewrite leb_cmp, !ltb_cmp. intros Hxy [H|H].
  - eapply cmp_lt_trans; eassumption.
  - rewrite <- (cmp_eq_r _ _ _ H). assumption.
Qed.

Lemma leb_trans (x y z : float) :
  (x <=? y) = true -> (y <=? z) = true -> (x <=? z) = true.
Proof.
  rewrite !leb_cmp. intros [H1|H1] [H2|H2].
  - left. eapply cmp_lt_trans; eassumption.
  - left. rewrite <- (cmp_eq_r _ _ _ H2). assumption.
  - left. rewrite (cmp_eq_l _ _ _ H1). assumption.
  - right. rewrite (cmp_eq_l _ _ _ H1). assumption.
Qed.

Lemma ltb_leb (x y : float) : (x <? y) = true -> (x <=? y) = true.
Proof. rewrite ltb_cmp, leb_cmp. tauto. Qed.

(** [x <= y] excludes [y < x]. *)
Lemma leb_not_gt (x y : float) : (x <=? y) = true -> (y <? x) = false.
Proof.
  rewrite leb_cmp, ltb_false_cmp, (cmp_antisym x y).
  intros [H|H]; rewrite H; cbn; congruence.
Qed.

Lemma ltb_not_ge (x y : float) : (x <? y) = true -> (y <=? x) = false.
Proof.
  intros H. destruct (y <=? x) eqn:E; [|reflexivity].
  apply leb_not_gt in E. congruence.
Qed.

Lemma ltb_irrefl (x : float) : (x <? x) = false.
Proof.
  destruct (x <? x) eqn:E; [|reflexivity].
  pose proof (ltb_not_ge _ _ E) as H. apply ltb_leb in E. congruence.
Qed.

(** Below or equal, and not equal, is below. *)
Lemma leb_neq_ltb (x y : float) :
  (x <=? y) = true -> (x =? y) = false -> (x <? y) = true.
Proof.
  intros Hle Hne. apply leb_cmp in Hle. apply ltb_cmp.
  destruct Hle as [H|H]; [assumption|].
  apply eqb_cmp in H. congruence.
Qed.

(** A value that takes part in a true comparison is not [NaN]. *)
Lemma cmp_Some_not_nan_l (x y : float) (c : comparison) :
  cmp x y = Some c -> is_nan x = false.
Proof.
  unfold cmp, is_nan. intros H.
  assert (Hx : Prim2SF x <> S754_nan).
  { intros E. rewrite E in H. discriminate. }
  rewrite (proj2 (eqb_cmp x x)); [reflexivity|].
  apply SFcompare_refl. assumption.
Qed.

Lemma cmp_Some_not_nan_r (x y : float) (c : comparison) :
  cmp x y = Some c -> is_nan y = false.
Proof.
  intros H. apply (cmp_Some_not_nan_l y x (CompOpp c)).
  rewrite cmp_antisym, H. reflexivity.
Qed.

(** Two values that are not [NaN] are comparable. *)
Lemma cmp_total (x y : float) :
  is_nan x = false -> is_nan y = false -> exists c, cmp x y = Some c.
Proof.
  unfold is_nan. intros Hx Hy.
  apply negb_false_iff, eqb_cmp in Hx. apply negb_false_iff, eqb_cmp in Hy.
  unfold cmp in *.
  destruct (Prim2SF x) as [[]|[]| |[] ? ?]; try discriminate;
    destruct (Prim2SF y) as [[]|[]| |[] ? ?]; try discriminate; cbn; eauto.
Qed.

Lemma is_nan_Prim2SF (x : float) : is_nan x = true -> Prim2SF x = S754_nan.
Proof.
  unfold is_nan. intros H. apply negb_true_iff in H.
  destruct (Prim2SF x) as [s|s| |s m e] eqn:E; [| |reflexivity|];
    rewrite (proj2 (eqb_cmp x x)) in H; try discriminate H;
    unfold cmp; rewrite E; apply SFcompare_refl; discriminate.
Qed.

(** [NaN] is below nothing and nothing is below it. *)
Lemma ltb_nan_l (x y : float) : is_nan x = true -> (x <? y) = false.
Proof.
  intros H. apply ltb_false_cmp. unfold cmp. rewrite (is_nan_Prim2SF x H).
  discriminate.
Qed.

Lemma ltb_nan_r (x y : float) : is_nan y = true -> (x <? y) = false.
Proof.
  intros H. apply ltb_false_cmp. unfold cmp. rewrite (is_nan_Prim2SF y H).
  destruct (Prim2SF x); discriminate.
Qed.

(** Of two values that are not [NaN], one not below the other is at
    least the other. *)
Lemma not_ltb_leb (x y : float) :
  is_nan x = false -> is_nan y = false -> (y <? x) = false -> (x <=? y) = true.
Proof.
  intros Hx Hy H. destruct (cmp_total x y Hx Hy) as [c Hc].
  apply leb_cmp. apply ltb_false_cmp in H. rewrite cmp_antisym, Hc in H.
  destruct c; cbn in H; auto; congruence.
Qed.

Lemma leb_refl (x : float) : is_nan x = false -> (x <=? x) = true.
Proof.
  intros Hx. apply not_ltb_leb; auto. apply ltb_irrefl.
Qed.

End FloatOrder.


(** ** Values at or below zero

    What subtraction from 0, [Math.max], multiplication by a positive
    constant and addition do to values that are at most 0. *)

Module FloatSign.
Import FloatOrder.

Lemma Prim2SF_zero : Prim2SF 0 = S754_zero false.
Proof. reflexivity. Qed.

Lemma leb_zero_nonpos (x : float) : (x <=? 0) = true <-> SFnonpos (Prim2SF x).
Proof.
  rewrite FloatAxioms.leb_spec, Prim2SF_zero.
  destruct (Prim2SF x) as [[]|[]| |[] ? ?]; cbn; intuition congruence.
Qed.

Lemma zero_leb_nonneg (x : float) : (0 <=? x) = true <-> SFnonneg (Prim2SF x).
Proof.
  rewrite FloatAxioms.leb_spec, Prim2SF_zero.
  destruct (Prim2SF x) as [[]|[]| |[] ? ?]; cbn; intuition congruence.
Qed.

(** *** Shifting and rounding keep a mantissa non-negative *)

Lemma iter_pos_invariant {A : Type} (P : A -> Prop) (f : A -> A) :
  (forall x, P x -> P (f x)) ->
  forall (n : positive) (x : A), P x -> P (SpecFloat.iter_pos f n x).
Proof.
  intros Hf. induction n as [n IH|n IH|]; intros x Hx; cbn; auto.
Qed.

Lemma shr_1_nonneg (mrs : shr_record) : (0 <= shr_m mrs)%Z -> (0 <= shr_m (shr_1 mrs))%Z.
Proof.
  destruct mrs as [m r s]. cbn. intros Hm.
  destruct m as [|[p|p|]|p]; cbn; lia.
Qed.

Lemma shr_nonneg (mrs : shr_record) (e n : Z) :
  (0 <= shr_m mrs)%Z -> (0 <= shr_m (fst (shr mrs e n)))%Z.
Proof.
  intros Hm. destruct n as [|p|p]; cbn; try assumption.
  apply (iter_pos_invariant (fun r => (0 <= shr_m r)%Z)); [apply shr_1_nonneg | assumption].
Qed.

Lemma shr_fexp_nonneg (m e : Z) (l : location) :
  (0 <= m)%Z -> (0 <= shr_m (fst (shr_fexp prec emax m e l)))%Z.
Proof.
  intros Hm. unfold shr_fexp. apply shr_nonneg.
  destruct l as [|[]]; exact Hm.
Qed.

Lemma round_nearest_even_nonneg (m : Z) (l : location) :
  (0 <= m)%Z -> (0 <= round_nearest_even m l)%Z.
Proof.
  intros Hm. destruct l as [|[]]; cbn; try lia. destruct (Z.even m); lia.
Qed.

Lemma binary_round_aux_sign (sx : bool) (mx ex : Z) (lx : location) :
  (0 <= mx)%Z -> has_sign sx (binary_round_aux prec emax sx mx ex lx).
Proof.
  intros Hm. unfold binary_round_aux.
  pose proof (shr_fexp_nonneg mx ex lx Hm) as H1.
  destruct (shr_fexp prec emax mx ex lx) as [mrs' e']. cbn [fst] in H1.
  pose proof (shr_fexp_nonneg _ e' loc_Exact
                (round_nearest_even_nonneg _ (loc_of_shr_record mrs') H1)) as H2.
  destruct (shr_fexp prec emax _ e' loc_Exact) as [mrs'' e'']. cbn [fst] in H2.
  destruct (shr_m mrs'') as [|p|p]; cbn; try reflexivity; try lia.
  destruct (e'' <=? emax - prec)%Z; reflexivity.
Qed.

Lemma binary_round_sign (sx : bool) (mx : positive) (ex : Z) :
  has_sign sx (binary_round prec emax sx mx ex).
Proof.
  unfold binary_round. destruct (shl_align _ _ _) as [mz ez].
  apply binary_round_aux_sign. lia.
Qed.

Lemma has_sign_nonpos (x : spec_float) : has_sign true x -> SFnonpos x.
Proof. destruct x; cbn; auto. Qed.

(** *** The operations of the scores *)

Lemma SFmul_nonpos (x y : spec_float) :
  SFnonpos x ->
  (exists m e, y = S754_finite false m e) ->
  SFnonpos (SF64mul x y).
Proof.
  intros Hx (m & e & ->).
  destruct x as [s|s| |s mx ex]; cbn in Hx |- *; try assumption; try (now subst s).
  subst s. apply has_sign_nonpos. cbn. apply binary_round_aux_sign. lia.
Qed.

Lemma SFadd_nonpos (x y : spec_float) :
  SFnonpos x -> SFnonpos y -> SFnonpos (SF64add x y).
Proof.
  intros Hx Hy.
  destruct x as [sx|sx| |sx mx ex], y as [sy|sy| |sy my ey];
    cbn in Hx, Hy; try contradiction; subst;
    try (cbn; reflexivity); try (destruct sx; cbn; reflexivity).
  - destruct sx, sy; cbn; exact I.
  - apply has_sign_nonpos. unfold SF64add, SFadd. cbn [cond_Zopp Z.opp Z.add].
    cbn [binary_normalize]. apply binary_round_sign.
Qed.

Lemma SFsub_zero_nonneg (y : spec_float) :
  SFnonneg y -> SFnonpos (SF64sub (S754_zero false) y).
Proof.
  destruct y as [s|s| |s m e]; cbn; intros Hy; try contradiction; subst; cbn; auto.
  destruct s; exact I.
Qed.

Lemma mul_nonpos (x c : float) :
  (x <=? 0) = true ->
  (exists m e, Prim2SF c = S754_finite false m e) ->
  (x * c <=? 0) = true.
Proof.
  rewrite !leb_zero_nonpos, mul_spec. apply SFmul_nonpos.
Qed.

Lemma add_nonpos (x y : float) :
  (x <=? 0) = true -> (y <=? 0) = true -> (x + y <=? 0) = true.
Proof.
  rewrite !leb_zero_nonpos, add_spec. apply SFadd_nonpos.
Qed.

Lemma zero_sub_nonneg (y : float) :
  (0 <=? y) = true -> (0 - y <=? 0) = true.
Proof.
  rewrite leb_zero_nonpos, zero_leb_nonneg, sub_spec, Prim2SF_zero.
  apply SFsub_zero_nonneg.
Qed.

Lemma Math_max_nonpos (x y : float) :
  (x <=? 0) = true -> (y <=? 0) = true -> (Math_max x y <=? 0) = true.
Proof.
  intros Hx Hy. unfold Math_max.
  assert (is_nan x = false) as ->.
  { apply leb_cmp in Hx. destruct Hx; eapply cmp_Some_not_nan_l; eassumption. }
  assert (is_nan y = false) as ->.
  { apply leb_cmp in Hy. destruct Hy; eapply cmp_Some_not_nan_l; eassumption. }
  cbn [orb]. destruct (x <? y), (y <? x), (get_sign x); assumption.
Qed.

(** A value at most 0 is not above a positive bound. *)
Lemma nonpos_not_above (s t : float) :
  (s <=? 0) = true -> (0 <? t) = true -> (t <? s) = false.
Proof.
  intros Hs Ht. apply leb_not_gt. apply ltb_leb.
  eapply leb_ltb_trans; eassumption.
Qed.

End FloatSign.

(** ** Zeros of either sign

    [+0] and [-0] are one number for every comparison; the operations of
    the scores map numbers that are the same in this sense to numbers that
    are the same. *)

Module FloatZero.
Import FloatOrder.

Lemma SFsame_refl (x : spec_float) : SFsame x x.
Proof. left. reflexivity. Qed.

Lemma same_number_refl (x : float) : same_number x x.
Proof. apply SFsame_refl. Qed.

Lemma eqb_zero_Prim2SF (x : float) :
  (x =? 0) = true -> exists s, Prim2SF x = S754_zero s.
Proof.
  rewrite FloatAxioms.eqb_spec. change (Prim2SF 0) with (S754_zero false).
  destruct (Prim2SF x) as [s|[]| |[] ? ?]; cbn; intros H; try discriminate. eauto.
Qed.

Lemma zeros_same (x y : float) :
  (x =? 0) = true -> (y =? 0) = true -> same_number x y.
Proof.
  intros Hx Hy. apply eqb_zero_Prim2SF in Hx as [s Hx], Hy as [s' Hy].
  right. eauto.
Qed.

Lemma SFsame_compare_l (x x' y : spec_float) :
  SFsame x x' -> SFcompare x y = SFcompare x' y.
Proof.
  intros [-> | (s & s' & -> & ->)]; [reflexivity|].
  destruct y as [[]|[]| |[] ? ?]; reflexivity.
Qed.

Lemma SFsame_compare_r (x y y' : spec_float) :
  SFsame y y' -> SFcompare x y = SFcompare x y'.
Proof.
  intros [-> | (s & s' & -> & ->)]; [reflexivity|].
  destruct x as [[]|[]| |[] ? ?]; reflexivity.
Qed.

Lemma ltb_same (x x' y y' : float) :
  same_number x x' -> same_number y y' -> (x <? y) = (x' <? y').
Proof.
  intros Hx Hy. rewrite !FloatAxioms.ltb_spec. unfold SFltb.
  rewrite (SFsame_compare_l _ _ _ Hx), (SFsame_compare_r _ _ _ Hy). reflexivity.
Qed.

Lemma is_nan_same (x x' : float) : same_number x x' -> is_nan x = is_nan x'.
Proof.
  intros Hx. unfold is_nan. rewrite !FloatAxioms.eqb_spec. unfold SFeqb.
  rewrite (SFsame_compare_l _ _ _ Hx), (SFsame_compare_r _ _ _ Hx). reflexivity.
Qed.

Lemma SFsub_zeros (x : spec_float) (s s' : bool) :
  SFsame (SF64sub x (S754_zero s)) (SF64sub x (S754_zero s')).
Proof.
  destruct x as [[]|[]| |[] ? ?], s, s'; cbn;
    first [left; reflexivity | right; eauto].
Qed.

Lemma SFmul_same (x x' y : spec_float) :
  SFsame x x' -> SFsame (SF64mul x y) (SF64mul x' y).
Proof.
  intros [-> | (s & s' & -> & ->)]; [left; reflexivity|].
  destruct y as [sy|sy| |sy ? ?]; cbn; first [left; reflexivity | right; eauto].
Qed.

Lemma SFadd_zero_l (s s' : bool) (y : spec_float) :
  SFsame (SF64add (S754_zero s) y) (SF64add (S754_zero s') y).
Proof.
  destruct y as [[]|[]| |[] ? ?], s, s'; cbn;
    first [left; reflexivity | right; eauto].
Qed.

Lemma SFadd_zero_r (x : spec_float) (s s' : bool) :
  SFsame (SF64add x (S754_zero s)) (SF64add x (S754_zero s')).
Proof.
  destruct x as [[]|[]| |[] ? ?], s, s'; cbn;
    first [left; reflexivity | right; eauto].
Qed.

Lemma SFadd_same (x x' y y' : spec_float) :
  SFsame x x' -> SFsame y y' -> SFsame (SF64add x y) (SF64add x' y').
Proof.
  intros [-> | (s & s' & -> & ->)] [-> | (t & t' & -> & ->)].
  - left. reflexivity.
  - apply SFadd_zero_r.
  - apply SFadd_zero_l.
  - destruct s, s', t, t'; cbn; right; eauto.
Qed.

Lemma sub_zeros_same (x z z' : float) :
  (z =? 0) = true -> (z' =? 0) = true -> same_number (x - z) (x - z').
Proof.
  intros Hz Hz'. apply eqb_zero_Prim2SF in Hz as [s Hz], Hz' as [s' Hz'].
  unfold same_number. rewrite !sub_spec, Hz, Hz'. apply SFsub_zeros.
Qed.

Lemma mul_same (x x' y : float) : same_number x x' -> same_number (x * y) (x' * y).
Proof.
  intros H. unfold same_number. rewrite !mul_spec. apply SFmul_same. exact H.
Qed.

Lemma add_same (x x' y y' : float) :
  same_number x x' -> same_number y y' -> same_number (x + y) (x' + y').
Proof.
  intros Hx Hy. unfold same_number. rewrite !add_spec. apply SFadd_same; assumption.
Qed.

(** Two numbers that are the same are equal unless both are zeros. *)
Lemma same_number_cases (x x' : float) :
  same_number x x' -> x = x' \/ ((x =? 0) = true /\ (x' =? 0) = true).
Proof.
  intros [H | (s & s' & H & H')].
  - left. apply Prim2SF_inj. exact H.
  - right. rewrite !FloatAxioms.eqb_spec, H, H'. split; reflexivity.
Qed.

(** A number that compares equal to a zero is a zero. *)
Lemma eqb_zero_of_cmp_eq (x y : float) :
  (x =? 0) = true -> cmp x y = Some Eq -> (y =? 0) = true.
Proof.
  intros Hx Hxy. apply eqb_cmp. apply eqb_cmp in Hx.
  rewrite <- (cmp_eq_l x y 0 Hxy). exact Hx.
Qed.

Lemma Math_max_zeros (x y : float) :
  (x =? 0) = true -> (y =? 0) = true -> (Math_max x y =? 0) = true.
Proof.
  intros Hx Hy. unfold Math_max.
  assert (is_nan x = false) as ->.
  { apply eqb_cmp in Hx. eapply cmp_Some_not_nan_l. exact Hx. }
  assert (is_nan y = false) as ->.
  { apply eqb_cmp in Hy. eapply cmp_Some_not_nan_l. exact Hy. }
  cbn [orb]. destruct (x <? y), (y <? x), (get_sign x); assumption.
Qed.

Lemma Math_max_same (x x' y y' : float) :
  same_number x x' -> same_number y y' ->
  same_number (Math_max x y) (Math_max x' y').
Proof.
  intros Hx Hy.
  destruct (same_number_cases x x' Hx) as [<- | [Zx Zx']];
    destruct (same_number_cases y y' Hy) as [<- | [Zy Zy']].
  - apply same_number_refl.
  - unfold Math_max.
    rewrite <- (is_nan_same y y' Hy), <- (ltb_same x x y y' Hx Hy),
      <- (ltb_same y y' x x Hy Hx).
    destruct (is_nan x || is_nan y); [apply same_number_refl|].
    destruct (x <? y); [exact Hy|].
    destruct (y <? x); [apply same_number_refl|].
    destruct (get_sign x); [exact Hy | apply same_number_refl].
  - unfold Math_max.
    rewrite <- (is_nan_same x x' Hx), <- (ltb_same x x' y y Hx Hy),
      <- (ltb_same y y x x' Hy Hx).
    destruct (is_nan x || is_nan y) eqn:N; [apply same_number_refl|].
    apply orb_false_iff in N as [Nx Ny].
    destruct (x <? y) eqn:Exy; [apply same_number_refl|].
    destruct (y <? x) eqn:Eyx; [exact Hx|].
    assert (Zy : (y =? 0) = true).
    { apply (eqb_zero_of_cmp_eq x y Zx).
      destruct (cmp_total x y Nx Ny) as [c Hc].
      apply ltb_false_cmp in Exy, Eyx. rewrite cmp_antisym, Hc in Eyx.
      destruct c; cbn in Eyx; congruence. }
    destruct (get_sign x), (get_sign x'); try exact Hx; try apply same_number_refl;
      apply zeros_same; assumption.
  - apply zeros_same; apply Math_max_zeros; assumption.
Qed.

End FloatZero.

(** ** Rounding to nearest

    What [SpecFloat] computes when it rounds, read on integers; then the
    monotonicity of subtraction in its first argument. *)

Module FloatRound.
Local Open Scope Z_scope.

Local Abbreviation round_even := Round.round_even.
Local Abbreviation shr_state := Round.shr_state.
Local Abbreviation finite_or_zero := Round.finite_or_zero.

(** *** Digits and shifts *)

(** [digits2_pos m] is the number of binary digits of [m]. *)
Lemma digits2_pos_bounds (m : positive) :
  2 ^ (Zpos (digits2_pos m) - 1) <= Zpos m < 2 ^ Zpos (digits2_pos m).
Proof.
  induction m as [m IH|m IH|]; cbn [digits2_pos].
  - rewrite Pos2Z.inj_succ.
    replace (Z.succ (Zpos (digits2_pos m)) - 1) with (Z.succ (Zpos (digits2_pos m) - 1)) by lia.
    rewrite !Z.pow_succ_r by lia. lia.
  - rewrite Pos2Z.inj_succ.
    replace (Z.succ (Zpos (digits2_pos m)) - 1) with (Z.succ (Zpos (digits2_pos m) - 1)) by lia.
    rewrite !Z.pow_succ_r by lia. lia.
  - cbn. lia.
Qed.

Lemma digits2_pos_log2 (m : positive) :
  Zpos (digits2_pos m) = Z.log2 (Zpos m) + 1.
Proof.
  pose proof (digits2_pos_bounds m) as [Hlo Hhi].
  rewrite (Z.log2_unique (Zpos m) (Zpos (digits2_pos m) - 1)); [lia | lia |].
  split; [exact Hlo|].
  replace (Z.succ (Zpos (digits2_pos m) - 1)) with (Zpos (digits2_pos m)) by lia.
  exact Hhi.
Qed.

(** [n] steps of an indexed invariant. *)
Lemma iter_pos_steps {A : Type} (I : Z -> A -> Prop) (f : A -> A) :
  (forall j x, 0 <= j -> I j x -> I (j + 1) (f x)) ->
  forall (n : positive) (j : Z) (x : A),
    0 <= j -> I j x -> I (j + Zpos n) (SpecFloat.iter_pos f n x).
Proof.
  intros Hf. induction n as [n IH|n IH|]; intros j x Hj Hx; cbn [SpecFloat.iter_pos].
  - replace (j + Zpos n~1) with (j + 1 + Zpos n + Zpos n) by lia.
    apply IH; [lia|]. apply IH; [lia|]. apply Hf; assumption.
  - replace (j + Zpos n~0) with (j + Zpos n + Zpos n) by lia.
    apply IH; [lia|]. apply IH; assumption.
  - apply Hf; assumption.
Qed.

(** One halving keeps the state, one place further. *)
Lemma shr_1_state (m j : Z) (mrs : shr_record) :
  0 <= j -> 0 <= shr_m mrs -> shr_state m j mrs -> shr_state m (j + 1) (shr_1 mrs).
Proof.
  intros Hj Hm (rem & Hrem & Hval & Hr & Hs).
  assert (Hpow : 2 ^ (j + 1) = 2 * 2 ^ j) by (rewrite Z.pow_add_r by lia; lia).
  assert (Hp : 0 < 2 ^ j) by (apply Z.pow_pos_nonneg; lia).
  destruct mrs as [q r s]. cbn [shr_m shr_r shr_s] in *.
  assert (Hstick : (r || s)%bool = negb (rem =? 0)).
  { rewrite Hr, Hs.
    destruct (Z.leb_spec (2 ^ j) (2 * rem)), (Z.eqb_spec rem 0),
      (Z.eqb_spec (2 * rem) (2 ^ j)); cbn; try reflexivity; lia. }
  destruct q as [|[q|q|]|q]; cbn [shr_1]; try lia;
    [exists rem | exists (rem + 2 ^ j) | exists rem | exists (rem + 2 ^ j)];
    cbn [shr_m shr_r shr_s]; rewrite Hpow, Hstick;
    (split; [lia|]); (split; [lia|]);
    (split; [symmetry; first [apply Z.leb_gt; lia | apply Z.leb_le; lia]|]);
    destruct (Z.eqb_spec rem 0), (Z.eqb_spec (rem + 2 ^ j) 0),
      (Z.eqb_spec (2 * rem) (2 * 2 ^ j)),
      (Z.eqb_spec (2 * (rem + 2 ^ j)) (2 * 2 ^ j)); cbn; try reflexivity; lia.
Qed.

(** What the rounding makes of a record in that state. *)
Lemma round_shr_state (m j : Z) (mrs : shr_record) :
  0 <= j -> shr_state m j mrs ->
  round_nearest_even (shr_m mrs) (loc_of_shr_record mrs)
    = round_even (m / 2 ^ j) (m mod 2 ^ j) (2 ^ j) /\
  shr_m mrs = m / 2 ^ j.
Proof.
  intros Hj (rem & Hrem & Hval & Hr & Hs).
  assert (Hp : 0 < 2 ^ j) by (apply Z.pow_pos_nonneg; lia).
  assert (Hq : m / 2 ^ j = shr_m mrs).
  { symmetry. apply (Z.div_unique_pos m (2 ^ j) (shr_m mrs) rem); lia. }
  assert (Hm : m mod 2 ^ j = rem).
  { symmetry. apply (Z.mod_unique_pos m (2 ^ j) (shr_m mrs) rem); lia. }
  rewrite Hq, Hm. split; [|reflexivity].
  destruct mrs as [q r s]. cbn [shr_m shr_r shr_s] in *.
  unfold Round.round_even, loc_of_shr_record, round_nearest_even. subst r s.
  destruct (Z.leb_spec (2 ^ j) (2 * rem)), (Z.eqb_spec rem 0),
    (Z.eqb_spec (2 * rem) (2 ^ j)), (Z.ltb_spec (2 * rem) (2 ^ j)),
    (Z.ltb_spec (2 ^ j) (2 * rem)); cbn; try reflexivity; try lia.
Qed.

(** [shr] on an exact record, by [n >= 0] places. *)
Lemma shr_exact (m e n : Z) :
  0 <= m -> 0 <= n ->
  let r := shr (shr_record_of_loc m loc_Exact) e n in
  snd r = e + n /\
  shr_m (fst r) = m / 2 ^ n /\
  round_nearest_even (shr_m (fst r)) (loc_of_shr_record (fst r))
    = round_even (m / 2 ^ n) (m mod 2 ^ n) (2 ^ n).
Proof.
  intros Hm Hn. cbv zeta.
  assert (H0 : shr_state m 0 (shr_record_of_loc m loc_Exact) /\
               0 <= shr_m (shr_record_of_loc m loc_Exact)).
  { split; [|exact Hm]. exists 0. cbn. repeat split; lia. }
  destruct n as [|n|n]; [| |lia].
  - cbn [shr fst snd]. split; [lia|].
    destruct (round_shr_state m 0 _ (Z.le_refl 0) (proj1 H0)) as [H1 H2]. auto.
  - cbn [shr fst snd]. split; [reflexivity|].
    pose proof (iter_pos_steps
      (fun j mrs => shr_state m j mrs /\ 0 <= shr_m mrs) shr_1) as Hsteps.
    destruct (Hsteps (fun j x Hj '(conj Hs Hq) =>
                 conj (shr_1_state m j x Hj Hq Hs) (FloatSign.shr_1_nonneg x Hq))
               n 0 _ (Z.le_refl 0) H0) as [Hst _].
    cbn [Z.add] in Hst.
    destruct (round_shr_state m (Zpos n) _ ltac:(lia) Hst) as [H1 H2]. auto.
Qed.


(** Only the ratio of the remainder to the divisor matters. *)
Lemma round_even_scale (q rem p c : Z) :
  0 < c -> round_even q (rem * c) (p * c) = round_even q rem p.
Proof.
  intros Hc. unfold Round.round_even.
  destruct (Z.ltb_spec (2 * (rem * c)) (p * c)), (Z.ltb_spec (2 * rem) p),
    (Z.ltb_spec (p * c) (2 * (rem * c))), (Z.ltb_spec p (2 * rem));
    try reflexivity; nia.
Qed.

(** Appending [d] zero digits multiplies by [2^d]. *)
Lemma pos_iter_xO (m d : positive) : Zpos (Pos.iter xO m d) = Zpos m * 2 ^ Zpos d.
Proof.
  induction d as [|d IH] using Pos.peano_ind.
  - cbn. lia.
  - rewrite Pos.iter_succ, Pos2Z.inj_xO, IH, Pos2Z.inj_succ, Z.pow_succ_r by lia. lia.
Qed.


Section Format.
Variables prec emax : Z.
Hypothesis prec_pos : 0 < prec.
Hypothesis prec_lt_emax : prec < emax.

Local Abbreviation emin_ := (SpecFloat.emin prec emax).
Local Abbreviation fexp_ := (SpecFloat.fexp prec emax).
Local Abbreviation grid := (Round.grid prec).
Local Abbreviation nearest := (Round.nearest prec).
Local Abbreviation nearest_signed := (Round.nearest_signed prec).
Local Abbreviation scaled := (Round.scaled prec emax).
Local Abbreviation SFvalue := (Round.SFvalue prec emax).
Local Abbreviation rounds_to := (Round.rounds_to prec emax).
Local Abbreviation rounding_of := (Round.rounding_of prec emax).

(** *** Rounding a positive integer on its grid *)

Lemma round_even_bounds (q rem p : Z) : q <= round_even q rem p <= q + 1.
Proof.
  unfold Round.round_even.
  destruct (2 * rem <? p), (p <? 2 * rem), (Z.even q); lia.
Qed.

Lemma round_even_mono_rem (q r1 r2 p : Z) :
  r1 <= r2 -> round_even q r1 p <= round_even q r2 p.
Proof.
  intros H. unfold Round.round_even.
  destruct (Z.ltb_spec (2 * r1) p), (Z.ltb_spec p (2 * r1)),
    (Z.ltb_spec (2 * r2) p), (Z.ltb_spec p (2 * r2)), (Z.even q); lia.
Qed.

(** Rounding on one grid is monotone. *)
Lemma round_on_grid_mono (v1 v2 p : Z) :
  0 < p -> v1 <= v2 ->
  round_even (v1 / p) (v1 mod p) p * p <= round_even (v2 / p) (v2 mod p) p * p.
Proof.
  intros Hp Hv. apply Z.mul_le_mono_nonneg_r; [lia|].
  assert (Hq : v1 / p <= v2 / p) by (apply Z.div_le_mono; lia).
  destruct (Z.eq_dec (v1 / p) (v2 / p)) as [E|E].
  - rewrite E. apply round_even_mono_rem.
    pose proof (Z.div_mod v1 p). pose proof (Z.div_mod v2 p). nia.
  - pose proof (round_even_bounds (v1 / p) (v1 mod p) p).
    pose proof (round_even_bounds (v2 / p) (v2 mod p) p). lia.
Qed.

Lemma grid_nonneg (v : Z) : 0 <= grid v.
Proof. unfold Round.grid. lia. Qed.

Lemma grid_mono (v1 v2 : Z) : 0 < v1 <= v2 -> grid v1 <= grid v2.
Proof.
  intros H. unfold Round.grid. pose proof (Z.log2_le_mono v1 v2). lia.
Qed.

(** A rounded value stays within the binade of its argument. *)
Lemma nearest_upper (v : Z) : 0 < v -> nearest v <= 2 ^ (Z.log2 v + 1).
Proof using prec_pos prec_lt_emax.
  intros Hv. unfold Round.nearest.
  set (k := grid v). set (p := 2 ^ k).
  assert (Hk : 0 <= k <= Z.log2 v + 1).
  { unfold k, Round.grid. pose proof (Z.log2_nonneg v). lia. }
  assert (Hp : 0 < p) by (apply Z.pow_pos_nonneg; lia).
  destruct (Z.log2_spec v Hv) as [_ Hhi].
  replace (Z.succ (Z.log2 v)) with (Z.log2 v + 1) in Hhi by lia.
  assert (Hsplit : 2 ^ (Z.log2 v + 1) = 2 ^ (Z.log2 v + 1 - k) * p).
  { unfold p. rewrite <- Z.pow_add_r by lia. f_equal. lia. }
  rewrite Hsplit.
  apply Z.mul_le_mono_nonneg_r; [lia|].
  pose proof (round_even_bounds (v / p) (v mod p) p).
  assert (v / p < 2 ^ (Z.log2 v + 1 - k)).
  { apply Z.div_lt_upper_bound; [lia|]. rewrite Z.mul_comm, <- Hsplit. exact Hhi. }
  lia.
Qed.

Lemma nearest_lower (v : Z) : 0 < v -> 2 ^ Z.log2 v <= nearest v.
Proof using prec_pos prec_lt_emax.
  intros Hv. unfold Round.nearest.
  set (k := grid v). set (p := 2 ^ k).
  assert (Hk : 0 <= k <= Z.log2 v).
  { unfold k, Round.grid. pose proof (Z.log2_nonneg v). lia. }
  assert (Hp : 0 < p) by (apply Z.pow_pos_nonneg; lia).
  destruct (Z.log2_spec v Hv) as [Hlo _].
  assert (Hsplit : 2 ^ Z.log2 v = 2 ^ (Z.log2 v - k) * p).
  { unfold p. rewrite <- Z.pow_add_r by lia. f_equal. lia. }
  rewrite Hsplit.
  apply Z.mul_le_mono_nonneg_r; [lia|].
  pose proof (round_even_bounds (v / p) (v mod p) p).
  assert (2 ^ (Z.log2 v - k) <= v / p).
  { apply Z.div_le_lower_bound; [lia|]. rewrite Z.mul_comm, <- Hsplit. exact Hlo. }
  lia.
Qed.

(** Rounding to nearest is monotone on positive values. *)
Lemma nearest_mono (v1 v2 : Z) : 0 < v1 <= v2 -> nearest v1 <= nearest v2.
Proof using prec_pos prec_lt_emax.
  intros Hv.
  destruct (Z.eq_dec (Z.log2 v1) (Z.log2 v2)) as [E|E].
  - unfold Round.nearest, Round.grid. rewrite E.
    apply round_on_grid_mono; [|lia].
    apply Z.pow_pos_nonneg; lia.
  - pose proof (Z.log2_le_mono v1 v2).
    pose proof (nearest_upper v1). pose proof (nearest_lower v2).
    assert (2 ^ (Z.log2 v1 + 1) <= 2 ^ Z.log2 v2).
    { apply Z.pow_le_mono_r; lia. }
    lia.
Qed.

Lemma nearest_pos (v : Z) : 0 < v -> 0 < nearest v.
Proof using prec_pos prec_lt_emax.
  intros Hv. pose proof (nearest_lower v Hv).
  assert (0 < 2 ^ Z.log2 v) by (apply Z.pow_pos_nonneg; [lia | apply Z.log2_nonneg]).
  lia.
Qed.


(** *** What [binary_round] computes *)

Lemma scaled_pos (m : positive) (e : Z) : emin_ <= e -> 0 < scaled m e.
Proof.
  intros He. unfold Round.scaled.
  assert (0 < 2 ^ (e - emin_)) by (apply Z.pow_pos_nonneg; lia). lia.
Qed.

(** The grid of a mantissa at an exponent is the one [fexp] gives. *)
Lemma grid_scaled (m : positive) (e : Z) :
  emin_ <= e ->
  grid (scaled m e) = fexp_ (Zpos (digits2_pos m) + e) - emin_.
Proof.
  intros He. unfold Round.grid, Round.scaled, SpecFloat.fexp.
  rewrite Z.log2_mul_pow2 by lia. rewrite digits2_pos_log2. lia.
Qed.

(** Aligning to a lower exponent keeps the value and the position of the
    leading digit. *)
Lemma shl_align_scaled (mx : positive) (ex ex' : Z) :
  emin_ <= ex' ->
  let '(mz, ez) := shl_align mx ex ex' in
  scaled mz ez = scaled mx ex /\
  Zpos (digits2_pos mz) + ez = Zpos (digits2_pos mx) + ex /\
  ez = Z.min ex ex'.
Proof.
  intros Hmin. unfold shl_align. destruct (ex' - ex) as [|d|d] eqn:E.
  - repeat split; lia.
  - repeat split; lia.
  - assert (Hd : ex = ex' + Zpos d) by lia.
    split; [|split; [|lia]].
    + unfold Round.scaled. rewrite pos_iter_xO, Hd.
      replace (ex' + Zpos d - emin_) with (Zpos d + (ex' - emin_)) by lia.
      rewrite Z.pow_add_r by lia. lia.
    + rewrite !digits2_pos_log2, pos_iter_xO, Z.log2_mul_pow2 by lia. lia.
Qed.

(** Rounding an exact mantissa that is not too short for its exponent:
    one shift to the grid, the rounding, and one more shift by a place when
    the rounding carried into a new digit. *)
Lemma binary_round_aux_nearest (sx : bool) (mz : positive) (ez : Z) :
  emin_ <= ez ->
  ez <= fexp_ (Zpos (digits2_pos mz) + ez) ->
  rounds_to sx (nearest (scaled mz ez))
    (binary_round_aux prec emax sx (Zpos mz) ez loc_Exact).
Proof using prec_pos prec_lt_emax.
  intros Hez Hn1.
  set (f := fexp_ (Zpos (digits2_pos mz) + ez)) in *.
  set (n1 := f - ez).
  assert (Hp0 : 0 < 2 ^ (ez - emin_)) by (apply Z.pow_pos_nonneg; lia).
  assert (Hp1 : 0 < 2 ^ n1) by (apply Z.pow_pos_nonneg; lia).
  pose proof (digits2_pos_bounds mz) as [Hlo Hhi].
  (* the first shift *)
  unfold binary_round_aux, shr_fexp at 1. cbn [Zdigits2]. fold f. fold n1.
  destruct (shr_exact (Zpos mz) ez n1 ltac:(lia) ltac:(lia)) as (He1 & Hq1 & Hr1).
  destruct (shr (shr_record_of_loc (Zpos mz) loc_Exact) ez n1) as [mrs1 e1].
  cbn [fst snd] in He1, Hq1, Hr1. rewrite Hr1. clear Hr1.
  set (m1 := round_even (Zpos mz / 2 ^ n1) (Zpos mz mod 2 ^ n1) (2 ^ n1)).
  assert (He1' : e1 = f) by lia. clear He1. subst e1.
  (* the value after rounding *)
  assert (Hnear : nearest (scaled mz ez) = m1 * 2 ^ (f - emin_)).
  { unfold Round.nearest. rewrite grid_scaled by lia. fold f.
    replace (f - emin_) with (n1 + (ez - emin_)) by lia.
    rewrite Z.pow_add_r by lia. unfold Round.scaled.
    rewrite Z.div_mul_cancel_r by lia.
    rewrite Z.mul_mod_distr_r by lia.
    rewrite round_even_scale by lia. reflexivity. }
  (* the size of the rounded mantissa *)
  assert (Hq : Zpos mz / 2 ^ n1 <= m1 <= Zpos mz / 2 ^ n1 + 1) by apply round_even_bounds.
  assert (Hsize : 1 <= m1 /\ (emin_ < f -> 2 ^ (prec - 1) <= m1 <= 2 ^ prec) /\
                  (f = emin_ -> m1 < 2 ^ prec)).
  { destruct (Z.eq_dec n1 0) as [E0|E0].
    - assert (m1 = Zpos mz) as ->.
      { unfold m1. rewrite E0. cbn [Z.pow Z.pow_pos Pos.iter Z.mul Pos.mul].
        rewrite Z.div_1_r, Z.mod_1_r. reflexivity. }
      split; [lia|]. unfold f, SpecFloat.fexp in *.
      split; intros Hf.
      + assert (Zpos (digits2_pos mz) = prec) as Hd by lia.
        rewrite Hd in Hlo, Hhi. lia.
      + assert (Zpos (digits2_pos mz) <= prec) by lia.
        assert (2 ^ Zpos (digits2_pos mz) <= 2 ^ prec) by (apply Z.pow_le_mono_r; lia).
        lia.
    - assert (Hd : Zpos (digits2_pos mz) = prec + n1).
      { unfold n1, f, SpecFloat.fexp in *. lia. }
      rewrite Hd in Hlo, Hhi.
      replace (prec + n1 - 1) with ((prec - 1) + n1) in Hlo by lia.
      rewrite Z.pow_add_r in Hlo, Hhi by lia.
      assert (2 ^ (prec - 1) <= Zpos mz / 2 ^ n1).
      { apply Z.div_le_lower_bound; lia. }
      assert (Zpos mz / 2 ^ n1 < 2 ^ prec).
      { apply Z.div_lt_upper_bound; lia. }
      assert (0 < 2 ^ (prec - 1)) by (apply Z.pow_pos_nonneg; lia).
      split; [lia|]. split; intros Hf; [lia|].
      unfold n1 in *. lia. }
  destruct Hsize as (Hm1 & Hnormal & Hsub).
  (* the second shift, by 0 or by 1 *)
  destruct m1 as [|p1|p1] eqn:Em1; try lia.
  unfold shr_fexp. cbn [Zdigits2].
  set (n2 := fexp_ (Zpos (digits2_pos p1) + f) - f).
  pose proof (digits2_pos_bounds p1) as [Hlo1 Hhi1].
  assert (Hpp : 2 ^ prec = 2 * 2 ^ (prec - 1)).
  { replace prec with (Z.succ (prec - 1)) at 1 by lia. apply Z.pow_succ_r. lia. }
  assert (Hn2 : (n2 = 0 /\ (emin_ < f -> 2 ^ (prec - 1) <= Zpos p1)) \/
                (n2 = 1 /\ Zpos p1 = 2 ^ prec /\ emin_ < f)).
  { assert (Hf : emin_ <= f) by (unfold f, SpecFloat.fexp; lia).
    destruct (Z.eq_dec f emin_) as [Ef|Ef].
    - left. split; [|lia]. specialize (Hsub Ef).
      assert (Zpos (digits2_pos p1) <= prec).
      { destruct (Z.le_gt_cases (Zpos (digits2_pos p1)) prec) as [H|H]; [exact H|].
        assert (2 ^ prec <= 2 ^ (Zpos (digits2_pos p1) - 1)) by (apply Z.pow_le_mono_r; lia).
        lia. }
      unfold n2, SpecFloat.fexp. lia.
    - specialize (Hnormal ltac:(lia)).
      destruct (Z.eq_dec (Zpos p1) (2 ^ prec)) as [Etop|Etop].
      + right. split; [|split; [exact Etop | lia]].
        assert (Zpos (digits2_pos p1) = prec + 1).
        { rewrite digits2_pos_log2, Etop, Z.log2_pow2 by lia. reflexivity. }
        unfold n2, SpecFloat.fexp. lia.
      + left. split; [|lia].
        assert (Zpos (digits2_pos p1) = prec).
        { rewrite digits2_pos_log2.
          rewrite (Z.log2_unique (Zpos p1) (prec - 1)); [lia | lia |].
          replace (Z.succ (prec - 1)) with prec by lia. lia. }
        unfold n2, SpecFloat.fexp. lia. }
  destruct (shr_exact (Zpos p1) f n2 ltac:(lia) ltac:(lia)) as (He2 & Hq2 & _).
  destruct (shr (shr_record_of_loc (Zpos p1) loc_Exact) f n2) as [mrs2 e2].
  cbn [fst snd] in He2, Hq2. rewrite Hq2. subst e2.
  assert (Htop : 2 ^ (emax - emin_) = 2 ^ (prec - 1) * 2 ^ (emax - prec + 1 - emin_)).
  { rewrite <- Z.pow_add_r by (unfold SpecFloat.emin; lia). f_equal. lia. }
  destruct Hn2 as [(-> & Hbig) | (-> & Etop & Hf)].
  - rewrite Z.pow_0_r, Z.div_1_r, Z.add_0_r.
    destruct (Z.leb_spec f (emax - prec)) as [Hfit|Hover]; cbn [Round.rounds_to].
    + split; [reflexivity|]. split; [unfold f, SpecFloat.fexp; lia|].
      rewrite Hnear. reflexivity.
    + split; [reflexivity|]. rewrite Hnear, Htop.
      assert (emin_ < f) by (unfold SpecFloat.emin in *; lia).
      specialize (Hbig ltac:(lia)).
      assert (2 ^ (emax - prec + 1 - emin_) <= 2 ^ (f - emin_)).
      { apply Z.pow_le_mono_r; lia. }
      assert (0 < 2 ^ (emax - prec + 1 - emin_)).
      { apply Z.pow_pos_nonneg; unfold SpecFloat.emin; lia. }
      nia.
  - rewrite Z.pow_1_r, Etop, Hpp, Z.mul_comm, Z.div_mul by lia.
    assert (Hhalf : 0 < 2 ^ (prec - 1)) by (apply Z.pow_pos_nonneg; lia).
    destruct (2 ^ (prec - 1)) as [|ph|ph] eqn:Eh; try lia.
    assert (Hval : scaled ph (f + 1) = nearest (scaled mz ez)).
    { rewrite Hnear. unfold Round.scaled. rewrite <- Eh, Etop, Hpp.
      replace (f + 1 - emin_) with (Z.succ (f - emin_)) by lia.
      rewrite Z.pow_succ_r by lia. lia. }
    destruct (Z.leb_spec (f + 1) (emax - prec)) as [Hfit|Hover]; cbn [Round.rounds_to].
    + split; [reflexivity|]. split; [lia | exact Hval].
    + split; [reflexivity|]. rewrite <- Hval, Htop. unfold Round.scaled. rewrite <- Eh.
      assert (2 ^ (emax - prec + 1 - emin_) <= 2 ^ (f + 1 - emin_)).
      { apply Z.pow_le_mono_r; lia. }
      nia.
Qed.

Lemma binary_round_nearest (sx : bool) (mx : positive) (ex : Z) :
  emin_ <= ex ->
  rounds_to sx (nearest (scaled mx ex)) (binary_round prec emax sx mx ex).
Proof using prec_pos prec_lt_emax.
  intros Hex. unfold binary_round.
  set (f := fexp_ (Zpos (digits2_pos mx) + ex)).
  assert (Hf : emin_ <= f) by (unfold f, SpecFloat.fexp; lia).
  pose proof (shl_align_scaled mx ex f Hf) as H.
  destruct (shl_align mx ex f) as [mz ez]. destruct H as (Hv & Hd & He).
  rewrite <- Hv. apply binary_round_aux_nearest; [lia|].
  rewrite Hd. fold f. lia.
Qed.


(** *** Values of valid numbers *)

(** A valid finite number: exponent in range, mantissa of at most [prec]
    digits, and of exactly [prec] digits above the least exponent. *)
Lemma valid_finite (s : bool) (m : positive) (e : Z) :
  SpecFloat.valid_binary prec emax (S754_finite s m e) = true ->
  emin_ <= e <= emax - prec /\
  fexp_ (Zpos (digits2_pos m) + e) = e /\
  Zpos m < 2 ^ prec /\
  (emin_ < e -> 2 ^ (prec - 1) <= Zpos m).
Proof using prec_pos prec_lt_emax.
  cbn [SpecFloat.valid_binary]. unfold bounded, canonical_mantissa.
  intros H. apply andb_prop in H as [Hc Hb].
  apply Z.eqb_eq in Hc. apply Z.leb_le in Hb.
  pose proof (digits2_pos_bounds m) as [Hlo Hhi].
  assert (Hd : Zpos (digits2_pos m) <= prec) by (unfold SpecFloat.fexp in Hc; lia).
  assert (2 ^ Zpos (digits2_pos m) <= 2 ^ prec) by (apply Z.pow_le_mono_r; lia).
  repeat split; try lia.
  - unfold SpecFloat.fexp in Hc. lia.
  - intros He.
    assert (Zpos (digits2_pos m) = prec) as E by (unfold SpecFloat.fexp in Hc; lia).
    rewrite E in Hlo. exact Hlo.
Qed.

Lemma valid_scaled_lt_top (s : bool) (m : positive) (e : Z) :
  SpecFloat.valid_binary prec emax (S754_finite s m e) = true ->
  0 < scaled m e < 2 ^ (emax - emin_).
Proof using prec_pos prec_lt_emax.
  intros H. destruct (valid_finite s m e H) as ((He1 & He2) & _ & Hm & _).
  split; [apply scaled_pos; lia|]. unfold Round.scaled.
  assert (Hp : 0 < 2 ^ (e - emin_)) by (apply Z.pow_pos_nonneg; lia).
  assert (2 ^ prec * 2 ^ (e - emin_) <= 2 ^ (emax - emin_)).
  { rewrite <- Z.pow_add_r by lia. apply Z.pow_le_mono_r; lia. }
  nia.
Qed.

(** A valid number rounds to itself. *)
Lemma nearest_valid (s : bool) (m : positive) (e : Z) :
  SpecFloat.valid_binary prec emax (S754_finite s m e) = true ->
  nearest (scaled m e) = scaled m e.
Proof using prec_pos prec_lt_emax.
  intros H. destruct (valid_finite s m e H) as ((He1 & He2) & Hc & _).
  unfold Round.nearest. rewrite grid_scaled, Hc by lia.
  assert (Hp : 0 < 2 ^ (e - emin_)) by (apply Z.pow_pos_nonneg; lia).
  unfold Round.scaled. rewrite Z.div_mul, Z.mod_mul by lia.
  unfold Round.round_even. destruct (Z.ltb_spec (2 * 0) (2 ^ (e - emin_))); [reflexivity | lia].
Qed.

(** On valid numbers the order of [SFcompare] is the order of values. *)
Lemma SFcompare_lt_value (x y : spec_float) :
  SpecFloat.valid_binary prec emax x = true -> SpecFloat.valid_binary prec emax y = true ->
  finite_or_zero x -> finite_or_zero y ->
  SFcompare x y = Some Lt -> SFvalue x < SFvalue y.
Proof using prec_pos prec_lt_emax.
  intros Hx Hy Fx Fy.
  destruct x as [sx|sx| |sx mx ex]; try contradiction;
    destruct y as [sy|sy| |sy my ey]; try contradiction; cbn [SFcompare Round.SFvalue].
  - discriminate.
  - pose proof (valid_scaled_lt_top _ _ _ Hy). destruct sy; cbn; intros [=]; lia.
  - pose proof (valid_scaled_lt_top _ _ _ Hx). destruct sx; cbn; intros [=]; lia.
  - pose proof (valid_scaled_lt_top _ _ _ Hx) as Vx.
    pose proof (valid_scaled_lt_top _ _ _ Hy) as Vy.
    destruct (valid_finite _ _ _ Hx) as ((Hx1 & Hx2) & _ & Hmx & Hnx).
    destruct (valid_finite _ _ _ Hy) as ((Hy1 & Hy2) & _ & Hmy & Hny).
    assert (Hpp : 2 ^ prec = 2 * 2 ^ (prec - 1)).
    { replace prec with (Z.succ (prec - 1)) at 1 by lia. apply Z.pow_succ_r. lia. }
    assert (Hstep : forall (m1 m2 : positive) (e1 e2 : Z),
               emin_ <= e1 -> e1 < e2 ->
               Zpos m1 < 2 ^ prec -> 2 ^ (prec - 1) <= Zpos m2 ->
               scaled m1 e1 < scaled m2 e2).
    { intros m1 m2 e1 e2 H1 H12 Hm1 Hm2. unfold Round.scaled.
      assert (0 < 2 ^ (e1 - emin_)) by (apply Z.pow_pos_nonneg; lia).
      assert (2 * 2 ^ (e1 - emin_) <= 2 ^ (e2 - emin_)).
      { rewrite <- Z.pow_succ_r by lia. apply Z.pow_le_mono_r; lia. }
      nia. }
    change (Pos.compare_cont Eq mx my) with (Pos.compare mx my).
    destruct sx, sy; cbn [cond_Zopp]; try (intros [=]; lia).
    + destruct (Z.compare_spec ex ey) as [E|E|E]; try (intros [=]; fail).
      * subst ey. destruct (Pos.compare_spec mx my); cbn; intros [=].
        unfold Round.scaled.
        assert (0 < 2 ^ (ex - emin_)) by (apply Z.pow_pos_nonneg; lia). nia.
      * intros _. pose proof (Hstep my mx ey ex Hy1 E Hmy (Hnx ltac:(lia))). lia.
    + destruct (Z.compare_spec ex ey) as [E|E|E]; try (intros [=]; fail).
      * subst ey. destruct (Pos.compare_spec mx my); cbn; intros [=].
        unfold Round.scaled.
        assert (0 < 2 ^ (ex - emin_)) by (apply Z.pow_pos_nonneg; lia). nia.
      * intros _. apply Hstep; auto. apply Hny. lia.
Qed.

Lemma SFleb_value (x y : spec_float) :
  SpecFloat.valid_binary prec emax x = true -> SpecFloat.valid_binary prec emax y = true ->
  finite_or_zero x -> finite_or_zero y ->
  SFleb x y = true -> SFvalue x <= SFvalue y.
Proof using prec_pos prec_lt_emax.
  intros Hx Hy Fx Fy. unfold SFleb.
  destruct (SFcompare x y) as [[]|] eqn:E; try discriminate; intros _.
  - destruct x as [sx|sx| |sx mx ex]; try contradiction;
      destruct y as [sy|sy| |sy my ey]; try contradiction; cbn in E |- *;
      try lia; try (destruct sx; discriminate); try (destruct sy; discriminate).
    change (Pos.compare_cont Eq mx my) with (Pos.compare mx my) in E.
    destruct sx, sy; try discriminate;
      destruct (Z.compare_spec ex ey); try discriminate;
      destruct (Pos.compare_spec mx my); try discriminate; subst; lia.
  - pose proof (SFcompare_lt_value x y Hx Hy Fx Fy E). lia.
Qed.

(** *** Rounding of signed values *)

Lemma nearest_signed_mono (v1 v2 : Z) :
  v1 <= v2 -> nearest_signed v1 <= nearest_signed v2.
Proof using prec_pos prec_lt_emax.
  intros H. unfold Round.nearest_signed.
  pose proof (nearest_pos v2).
  pose proof (nearest_pos (- v1)).
  pose proof (nearest_mono v1 v2).
  pose proof (nearest_mono (- v2) (- v1)).
  destruct (Z.ltb_spec 0 v1), (Z.ltb_spec 0 v2), (Z.ltb_spec v1 0), (Z.ltb_spec v2 0);
    lia.
Qed.

Lemma rounds_to_rounding_of (sx : bool) (v : Z) (r : spec_float) :
  0 < v ->
  rounds_to sx (nearest v) r ->
  rounding_of (cond_Zopp sx v) r.
Proof using prec_pos prec_lt_emax.
  intros Hv Hr.
  assert (Hns : nearest_signed (cond_Zopp sx v) = cond_Zopp sx (nearest v)).
  { unfold Round.nearest_signed. destruct sx; cbn [cond_Zopp].
    - destruct (Z.ltb_spec 0 (- v)), (Z.ltb_spec (- v) 0); try lia.
      rewrite Z.opp_involutive. reflexivity.
    - destruct (Z.ltb_spec 0 v); [reflexivity | lia]. }
  destruct r as [s|s| |s m e]; cbn in Hr |- *; try contradiction.
  - destruct Hr as [-> Htop]. rewrite Hns. destruct sx; cbn; lia.
  - destruct Hr as (-> & He & Hval). split; [exact He|].
    rewrite Hns, Hval. reflexivity.
Qed.

Lemma rounding_of_valid (x : spec_float) :
  SpecFloat.valid_binary prec emax x = true -> finite_or_zero x ->
  rounding_of (SFvalue x) x.
Proof using prec_pos prec_lt_emax.
  intros Hx Fx. destruct x as [s|s| |s m e]; try contradiction; cbn.
  - reflexivity.
  - destruct (valid_finite s m e Hx) as ((He & _) & _).
    split; [exact He|].
    pose proof (scaled_pos m e He).
    pose proof (nearest_valid s m e Hx) as Hn.
    unfold Round.nearest_signed. destruct s; cbn [cond_Zopp].
    + destruct (Z.ltb_spec 0 (- scaled m e)), (Z.ltb_spec (- scaled m e) 0); try lia.
      rewrite Z.opp_involutive, Hn. reflexivity.
    + destruct (Z.ltb_spec 0 (scaled m e)); [symmetry; exact Hn | lia].
Qed.

(** Subtraction of valid finite numbers rounds the exact difference. *)
Lemma SFsub_rounding (x y : spec_float) :
  SpecFloat.valid_binary prec emax x = true ->
  SpecFloat.valid_binary prec emax y = true ->
  finite_or_zero x -> finite_or_zero y ->
  rounding_of (SFvalue x - SFvalue y) (SFsub prec emax x y).
Proof using prec_pos prec_lt_emax.
  intros Hx Hy Fx Fy.
  destruct x as [sx|sx| |sx mx ex]; try contradiction;
    destruct y as [sy|sy| |sy my ey]; try contradiction.
  - destruct sx, sy; reflexivity.
  - change (SFsub prec emax (S754_zero sx) (S754_finite sy my ey))
      with (S754_finite (negb sy) my ey).
    assert (Hy' : SpecFloat.valid_binary prec emax (S754_finite (negb sy) my ey) = true)
      by exact Hy.
    pose proof (rounding_of_valid _ Hy' I) as H.
    replace (SFvalue (S754_zero sx) - SFvalue (S754_finite sy my ey))
      with (SFvalue (S754_finite (negb sy) my ey)); [exact H|].
    cbn. destruct sy; cbn; lia.
  - change (SFsub prec emax (S754_finite sx mx ex) (S754_zero sy))
      with (S754_finite sx mx ex).
    pose proof (rounding_of_valid _ Hx I) as H.
    replace (SFvalue (S754_finite sx mx ex) - SFvalue (S754_zero sy))
      with (SFvalue (S754_finite sx mx ex)); [exact H|].
    cbn. lia.
  - destruct (valid_finite _ _ _ Hx) as ((Hx1 & _) & _).
    destruct (valid_finite _ _ _ Hy) as ((Hy1 & _) & _).
    cbn [SFsub Round.SFvalue].
    set (ez := Z.min ex ey).
    assert (Hez : emin_ <= ez) by (unfold ez; lia).
    pose proof (shl_align_scaled mx ex ez Hez) as Hax.
    pose proof (shl_align_scaled my ey ez Hez) as Hay.
    destruct (shl_align mx ex ez) as [mx' ex']. destruct Hax as (Hvx & _ & Hex).
    destruct (shl_align my ey ez) as [my' ey']. destruct Hay as (Hvy & _ & Hey).
    cbn [fst].
    assert (Ex : ex' = ez) by (unfold ez in *; lia). clear Hex. subst ex'.
    assert (Ey : ey' = ez) by (unfold ez in *; lia). clear Hey. subst ey'.
    rewrite <- Hvx, <- Hvy.
    set (M := cond_Zopp sx (Zpos mx') - cond_Zopp sy (Zpos my')).
    assert (Hp : 0 < 2 ^ (ez - emin_)) by (apply Z.pow_pos_nonneg; lia).
    assert (HM : cond_Zopp sx (scaled mx' ez) - cond_Zopp sy (scaled my' ez)
                 = M * 2 ^ (ez - emin_)).
    { unfold M, Round.scaled. destruct sx, sy; cbn [cond_Zopp]; lia. }
    rewrite HM. destruct M as [|p|p]; cbn [binary_normalize].
    + reflexivity.
    + apply (rounds_to_rounding_of false (Zpos p * 2 ^ (ez - emin_))); [lia|].
      apply (binary_round_nearest false p ez Hez).
    + replace (Zneg p * 2 ^ (ez - emin_)) with (cond_Zopp true (scaled p ez))
        by (unfold Round.scaled; cbn [cond_Zopp]; lia).
      apply rounds_to_rounding_of; [apply scaled_pos; lia|].
      apply (binary_round_nearest true p ez Hez).
Qed.

(** A difference of valid finite numbers is not [NaN]. *)
Lemma SFsub_not_nan (x y : spec_float) :
  SpecFloat.valid_binary prec emax x = true ->
  SpecFloat.valid_binary prec emax y = true ->
  finite_or_zero x -> finite_or_zero y ->
  SFsub prec emax x y <> S754_nan.
Proof using prec_pos prec_lt_emax.
  intros Hx Hy Fx Fy E.
  pose proof (SFsub_rounding x y Hx Hy Fx Fy) as H. rewrite E in H. exact H.
Qed.

(** Where the rounding of [v] lies, by the kind of the result. *)
Lemma rounding_of_range (v : Z) (r : spec_float) :
  rounding_of v r ->
  SpecFloat.valid_binary prec emax r = true ->
  match r with
  | S754_infinity false => 2 ^ (emax - emin_) <= nearest_signed v
  | S754_infinity true => nearest_signed v <= - 2 ^ (emax - emin_)
  | S754_nan => False
  | _ => SFvalue r = nearest_signed v /\
         - 2 ^ (emax - emin_) < nearest_signed v < 2 ^ (emax - emin_)
  end.
Proof using prec_pos prec_lt_emax.
  intros Hr Vr.
  assert (Htop : 0 < 2 ^ (emax - emin_)).
  { apply Z.pow_pos_nonneg; unfold SpecFloat.emin; lia. }
  destruct r as [s|[]| |s m e]; cbn [Round.rounding_of Round.SFvalue cond_Zopp] in *.
  - split; lia.
  - lia.
  - exact Hr.
  - exact Hr.
  - destruct Hr as [_ Hr]. split; [exact Hr|].
    pose proof (valid_scaled_lt_top _ _ _ Vr). destruct s; cbn [cond_Zopp] in Hr; lia.
Qed.

(** Roundings of ordered values are ordered. *)
Lemma rounding_of_mono (v1 v2 : Z) (r1 r2 : spec_float) :
  v1 <= v2 ->
  rounding_of v1 r1 -> rounding_of v2 r2 ->
  SpecFloat.valid_binary prec emax r1 = true ->
  SpecFloat.valid_binary prec emax r2 = true ->
  SFltb r2 r1 = false.
Proof using prec_pos prec_lt_emax.
  intros Hv H1 H2 V1 V2.
  pose proof (nearest_signed_mono v1 v2 Hv) as Hw.
  pose proof (rounding_of_range v1 r1 H1 V1) as R1.
  pose proof (rounding_of_range v2 r2 H2 V2) as R2.
  assert (Htop : 0 < 2 ^ (emax - emin_)).
  { apply Z.pow_pos_nonneg; unfold SpecFloat.emin; lia. }
  destruct (SFltb r2 r1) eqn:E; [exfalso | reflexivity].
  unfold SFltb in E. destruct (SFcompare r2 r1) as [[]|] eqn:C; try discriminate. clear E.
  assert (Hfin : Round.finite_or_zero r1 -> Round.finite_or_zero r2 -> False).
  { intros F1 F2. pose proof (SFcompare_lt_value _ _ V2 V1 F2 F1 C) as Hlt.
    destruct r1 as [s1|s1| |s1 m1 e1]; try contradiction;
      destruct r2 as [s2|s2| |s2 m2 e2]; try contradiction; lia. }
  destruct r1 as [s1|[]| |s1 m1 e1]; try contradiction;
    destruct r2 as [s2|[]| |s2 m2 e2]; try contradiction;
    try (apply Hfin; exact I); try discriminate C; try lia;
    try (destruct s1; discriminate C); try (destruct s2; discriminate C).
Qed.

Lemma SFltb_minus_infinity (r : spec_float) : SFltb r (S754_infinity true) = false.
Proof. destruct r as [[]|[]| |[] ? ?]; reflexivity. Qed.

Lemma SFltb_plus_infinity (r : spec_float) : SFltb (S754_infinity false) r = false.
Proof. destruct r as [[]|[]| |[] ? ?]; reflexivity. Qed.

Lemma SFsub_infinity_l (s : bool) (y : spec_float) :
  finite_or_zero y -> SFsub prec emax (S754_infinity s) y = S754_infinity s.
Proof. destruct y; try contradiction; reflexivity. Qed.

Lemma SFleb_infinity_r (x : spec_float) (s : bool) :
  SFleb x (S754_infinity s) = true -> s = false \/ x = S754_infinity true.
Proof.
  destruct x as [[]|[]| |[] ? ?], s; cbn; intros H; try discriminate; auto.
Qed.

Lemma SFleb_infinity_l (s : bool) (x : spec_float) :
  SFleb (S754_infinity s) x = true -> s = true \/ x = S754_infinity false.
Proof.
  destruct x as [[]|[]| |[] ? ?], s; cbn; intros H; try discriminate; auto.
Qed.

(** Subtraction is monotone in its first argument: raising it never
    lowers the difference. *)
Lemma SFsub_mono_l (x x' y : spec_float) :
  SpecFloat.valid_binary prec emax x = true ->
  SpecFloat.valid_binary prec emax x' = true ->
  SpecFloat.valid_binary prec emax y = true ->
  SpecFloat.valid_binary prec emax (SFsub prec emax x y) = true ->
  SpecFloat.valid_binary prec emax (SFsub prec emax x' y) = true ->
  SFleb x x' = true ->
  SFltb (SFsub prec emax x' y) (SFsub prec emax x y) = false.
Proof using prec_pos prec_lt_emax.
  intros Vx Vx' Vy Vr Vr' Hle.
  assert (Hcore : finite_or_zero x -> finite_or_zero x' -> finite_or_zero y ->
                  SFltb (SFsub prec emax x' y) (SFsub prec emax x y) = false).
  { intros Fx Fx' Fy.
    apply (rounding_of_mono (SFvalue x - SFvalue y) (SFvalue x' - SFvalue y)).
    - pose proof (SFleb_value x x' Vx Vx' Fx Fx' Hle). lia.
    - apply SFsub_rounding; assumption.
    - apply SFsub_rounding; assumption.
    - exact Vr.
    - exact Vr'. }
  assert (Hinf : finite_or_zero y ->
                 SFltb (SFsub prec emax x' y) (SFsub prec emax x y) = false).
  { intros Fy.
    destruct x as [sx|sx| |sx mx ex]; try discriminate Hle.
    - destruct x' as [sx'|sx'| |sx' mx' ex']; try (destruct sx; discriminate Hle).
      + apply Hcore; auto; exact I.
      + apply SFleb_infinity_r in Hle as [-> | [=]].
        rewrite SFsub_infinity_l by assumption. apply SFltb_plus_infinity.
      + apply Hcore; auto; exact I.
    - apply SFleb_infinity_l in Hle as [-> | ->];
        rewrite !SFsub_infinity_l by assumption.
      + apply SFltb_minus_infinity.
      + apply SFltb_plus_infinity.
    - destruct x' as [sx'|sx'| |sx' mx' ex']; try (destruct sx; discriminate Hle).
      + apply Hcore; auto; exact I.
      + apply SFleb_infinity_r in Hle as [-> | [=]].
        rewrite SFsub_infinity_l by assumption. apply SFltb_plus_infinity.
      + apply Hcore; auto; exact I. }
  destruct y as [sy|sy| |sy my ey].
  - apply Hinf. exact I.
  - destruct x as [[]|[]| |[] ? ?], x' as [[]|[]| |[] ? ?], sy; reflexivity.
  - destruct x as [[]|[]| |[] ? ?], x' as [[]|[]| |[] ? ?]; reflexivity.
  - apply Hinf. exact I.
Qed.
Lemma SFsub_infinity_r (x : spec_float) (s : bool) :
  finite_or_zero x -> SFsub prec emax x (S754_infinity s) = S754_infinity (negb s).
Proof. destruct x; try contradiction; reflexivity. Qed.

(** Subtraction is antitone in its second argument: raising it never
    raises the difference. *)
Lemma SFsub_mono_r (x y y' : spec_float) :
  SpecFloat.valid_binary prec emax x = true ->
  SpecFloat.valid_binary prec emax y = true ->
  SpecFloat.valid_binary prec emax y' = true ->
  SpecFloat.valid_binary prec emax (SFsub prec emax x y) = true ->
  SpecFloat.valid_binary prec emax (SFsub prec emax x y') = true ->
  SFleb y y' = true ->
  SFltb (SFsub prec emax x y) (SFsub prec emax x y') = false.
Proof using prec_pos prec_lt_emax.
  intros Vx Vy Vy' Vr Vr' Hle.
  assert (Hcore : finite_or_zero x -> finite_or_zero y -> finite_or_zero y' ->
                  SFltb (SFsub prec emax x y) (SFsub prec emax x y') = false).
  { intros Fx Fy Fy'.
    apply (rounding_of_mono (SFvalue x - SFvalue y') (SFvalue x - SFvalue y)).
    - pose proof (SFleb_value y y' Vy Vy' Fy Fy' Hle). lia.
    - apply SFsub_rounding; assumption.
    - apply SFsub_rounding; assumption.
    - exact Vr'.
    - exact Vr. }
  assert (Hfin : finite_or_zero x ->
                 SFltb (SFsub prec emax x y) (SFsub prec emax x y') = false).
  { intros Fx.
    destruct y as [sy|sy| |sy my ey]; try discriminate Hle.
    - destruct y' as [sy'|sy'| |sy' my' ey']; try (destruct sy; discriminate Hle).
      + apply Hcore; auto; exact I.
      + apply SFleb_infinity_r in Hle as [-> | [=]].
        rewrite (SFsub_infinity_r x) by assumption. apply SFltb_minus_infinity.
      + apply Hcore; auto; exact I.
    - apply SFleb_infinity_l in Hle as [-> | ->];
        rewrite !SFsub_infinity_r by assumption.
      + apply SFltb_plus_infinity.
      + apply SFltb_minus_infinity.
    - destruct y' as [sy'|sy'| |sy' my' ey']; try (destruct sy; discriminate Hle).
      + apply Hcore; auto; exact I.
      + apply SFleb_infinity_r in Hle as [-> | [=]].
        rewrite (SFsub_infinity_r x) by assumption. apply SFltb_minus_infinity.
      + apply Hcore; auto; exact I. }
  destruct x as [sx|sx| |sx mx ex].
  - apply Hfin. exact I.
  - destruct y as [[]|[]| |[] ? ?], y' as [[]|[]| |[] ? ?], sx;
      try discriminate Hle; reflexivity.
  - destruct y as [[]|[]| |[] ? ?], y' as [[]|[]| |[] ? ?]; reflexivity.
  - apply Hfin. exact I.
Qed.
End Format.
End FloatRound.

(** ** Glyphs and categories *)

(** The glyph table is injective: the glyph returned names the category. *)
Lemma EMOJI_SET_inj (e1 e2 : Expression) : EMOJI_SET e1 = EMOJI_SET e2 -> e1 = e2.
Proof. destruct e1, e2; cbn; intros H; try reflexivity; discriminate H. Qed.

(** ** Scores *)

Lemma get_delta (baseline_ : option Blend) (blend : Blend) (key : string) :
  get baseline_ blend key = Spec.delta blend baseline_ key.
Proof.
  unfold get, Spec.delta, b.
  destruct baseline_ as [m|]; cbn.
  - destruct (blend !! key), (m !! key); reflexivity.
  - rewrite lookup_empty. destruct (blend !! key); reflexivity.
Qed.

(** The entries of [expressionScores], with [get] read as [delta]. *)
Lemma expressionScores_delta (baseline_ : option Blend) (blend : Blend) :
  expressionScores baseline_ blend =
    [ (smile, Spec.smile_score blend baseline_);
      (surprise, Spec.surprise_score blend baseline_);
      (frown, Spec.frown_score blend baseline_);
      (cheeky, Spec.cheeky_score blend baseline_) ].
Proof.
  unfold expressionScores, Spec.smile_score, Spec.surprise_score,
    Spec.frown_score, Spec.cheeky_score.
  rewrite !get_delta. reflexivity.
Qed.

(** C2: the four scores the program computes are the stated formulas over
    [delta], where a key missing from the current vector or from the
    baseline (or a baseline never set) counts as 0. *)
Theorem scores_are_the_stated_formulas (current : Blend) (baseline_ : option Blend) :
  let delta := Spec.delta current baseline_ in
  expressionScores baseline_ current =
    [ (smile, Math_max (delta "mouthSmileLeft") (delta "mouthSmileRight"));
      (surprise, delta "jawOpen" * 0.9 + delta "mouthPucker" * 0.4);
      (frown, Math_max (delta "mouthFrownLeft") (delta "mouthFrownRight"));
      (cheeky, Math_max (delta "cheekPuffLeft") (delta "cheekPuffRight")
               + delta "tongueOut") ].
Proof.
  cbv zeta. rewrite expressionScores_delta. reflexivity.
Qed.

(** ** Thresholds *)

(** C3: the thresholds are smile 0.25, surprise 0.28, frown 0.20 and cheeky
    0.22, and these are the values an iteration of the selection loop
    compares a score with. *)
Theorem thresholds_are_fixed_constants :
  EMOTION_THRESHOLDS smile = Some 0.25 /\
  EMOTION_THRESHOLDS surprise = Some 0.28 /\
  EMOTION_THRESHOLDS frown = Some 0.20 /\
  EMOTION_THRESHOLDS cheeky = Some 0.22 /\
  forall (acc : Expression * float) (s : float),
    loop_body acc (smile, s)
      = (if (0.25 <? s) && (snd acc <? s) then (smile, s) else acc) /\
    loop_body acc (surprise, s)
      = (if (0.28 <? s) && (snd acc <? s) then (surprise, s) else acc) /\
    loop_body acc (frown, s)
      = (if (0.20 <? s) && (snd acc <? s) then (frown, s) else acc) /\
    loop_body acc (cheeky, s)
      = (if (0.22 <? s) && (snd acc <? s) then (cheeky, s) else acc).
Proof.
  repeat split; destruct acc as [best bestScore]; reflexivity.
Qed.

(** ** The selection loop *)

(** The loop ends on its starting pair or on an entry that passed both
    tests, with a score above the starting one. *)
Lemma loop_result (entries : list (Expression * float)) (acc : Expression * float) :
  let r := fold_left loop_body entries acc in
  r = acc \/
  (In r entries /\
   (snd acc <? snd r) = true /\
   above_threshold (snd r) (EMOTION_THRESHOLDS (fst r)) = true).
Proof.
  revert acc. induction entries as [|[e s] rest IH]; intros [best bestScore]; cbn.
  - left. reflexivity.
  - destruct (above_threshold s (EMOTION_THRESHOLDS e)) eqn:Ht; cbn [andb].
    + unfold gt. destruct (bestScore <? s) eqn:Hs.
      * destruct (IH (e, s)) as [Hr | (Hin & Hlt & Habove)].
        -- right. rewrite Hr. cbn. auto.
        -- right. split; [right; exact Hin|]. split; [|exact Habove].
           cbn in Hlt |- *. eapply FloatOrder.ltb_trans; eassumption.
      * destruct (IH (best, bestScore)) as [Hr | (Hin & Hlt & Habove)]; auto.
    + destruct (IH (best, bestScore)) as [Hr | (Hin & Hlt & Habove)]; auto.
Qed.

(** An entry that passes both tests, beats every passing entry before it
    and is not beaten by a passing entry after it, is where the loop ends. *)
Lemma loop_picks (pre post : list (Expression * float)) (acc : Expression * float)
    (c : Expression) (s : float) :
  above_threshold s (EMOTION_THRESHOLDS c) = true ->
  (snd acc <? s) = true ->
  (forall d sd, In (d, sd) pre ->
     above_threshold sd (EMOTION_THRESHOLDS d) = true -> (sd <? s) = true) ->
  (forall d sd, In (d, sd) post ->
     above_threshold sd (EMOTION_THRESHOLDS d) = true -> (sd <=? s) = true) ->
  fold_left loop_body (pre ++ (c, s) :: post) acc = (c, s).
Proof.
  intros Hc Hacc Hpre Hpost.
  rewrite fold_left_app. cbn [fold_left].
  assert (Hmid : (snd (fold_left loop_body pre acc) <? s) = true).
  { destruct (loop_result pre acc) as [Hr | (Hin & _ & Habove)].
    - cbv zeta in Hr. rewrite Hr. exact Hacc.
    - cbv zeta in Hin, Habove.
      destruct (fold_left loop_body pre acc) as [d sd]. cbn in *. eauto. }
  destruct (fold_left loop_body pre acc) as [best bestScore]. cbn in Hmid.
  cbn [loop_body]. rewrite Hc. unfold gt. rewrite Hmid. cbn [andb].
  clear Hpre Hmid Hacc.
  induction post as [|[d sd] rest IH]; [reflexivity|].
  cbn [fold_left loop_body].
  destruct (above_threshold sd (EMOTION_THRESHOLDS d)) eqn:Hd; cbn [andb].
  - unfold gt. rewrite (FloatOrder.leb_not_gt sd s).
    + apply IH. intros; eapply Hpost; [right|]; eassumption.
    + eapply Hpost; [left; reflexivity | exact Hd].
  - apply IH. intros; eapply Hpost; [right|]; eassumption.
Qed.

(** An iteration of the program's loop is a visit of the rule that carries
    the entry's threshold. *)
Lemma loop_body_visit (acc : Expression * float) (e : Expression) (s t : float) :
  EMOTION_THRESHOLDS e = Some t ->
  loop_body acc (e, s) = Spec.visit acc (e, s, t).
Proof.
  intros Ht. destruct acc as [best bestScore]. cbn. rewrite Ht. reflexivity.
Qed.

(** The program's loop over the entries of [expressionScores] is the fold
    over the rule list. *)
Lemma bestExpression_select (baseline_ : option Blend) (blend : Blend) :
  bestExpression baseline_ blend = Spec.select (Spec.rules blend baseline_).
Proof.
  unfold bestExpression. rewrite expressionScores_delta.
  unfold Spec.select, Spec.rules. cbn [fold_left].
  rewrite (loop_body_visit _ smile _ 0.25), (loop_body_visit _ surprise _ 0.28),
    (loop_body_visit _ frown _ 0.2), (loop_body_visit _ cheeky _ 0.22)
    by reflexivity.
  reflexivity.
Qed.

(** C1: for a current vector and any baseline, the category selected is the
    result of the fold that starts from neutral with best score 0.15, visits
    smile, surprise, frown, cheeky in that order and moves to a category
    exactly when its score is above its threshold and above the best score
    so far; and a category whose score is at most 0.15 is never selected. *)
Theorem selection_is_the_stated_fold (st : State) (current : Blend) :
  pickEmoji st (Some current)
    = EMOJI_SET (Spec.select (Spec.rules current (baseline st))) /\
  forall (c : Expression) (s : float),
    In (c, s) (expressionScores (baseline st) current) ->
    (s <=? 0.15) = true ->
    pickEmoji st (Some current) <> EMOJI_SET c.
Proof.
  split.
  - cbn [pickEmoji]. rewrite bestExpression_select. reflexivity.
  - intros c s Hin Hle Hpick. cbn [pickEmoji] in Hpick.
    apply EMOJI_SET_inj in Hpick. unfold bestExpression in Hpick.
    destruct (loop_result (expressionScores (baseline st) current) (neutral, 0.15))
      as [Hr | (Hr & Hlt & _)]; cbv zeta in *.
    + rewrite Hr in Hpick. cbn in Hpick. subst c.
      cbn in Hin. intuition discriminate.
    + destruct (fold_left _ _ _) as [best bestScore]. cbn in Hpick, Hlt. subst best.
      assert (bestScore = s) as ->.
      { cbn in Hin, Hr.
        repeat match goal with
          | H : _ \/ _ |- _ => destruct H
          | H : False |- _ => destruct H
          | H : (_, _) = (_, _) |- _ => inversion H; clear H
          end; subst; congruence. }
      apply FloatOrder.leb_not_gt in Hle. congruence.
Qed.

(** C4: with no current vector the result is neutral, whatever the
    baseline holds: no state gives another result. *)
Theorem null_vector_is_neutral (st : State) :
  pickEmoji st None = EMOJI_SET neutral /\
  forall st' : State, pickEmoji st' None = pickEmoji st None.
Proof. split; [|intros st']; reflexivity. Qed.

(** ** Baselines *)

Lemma get_all_zero (z blend : Blend) (key : string) :
  all_zero z -> same_number (get (Some z) blend key) (get None blend key).
Proof.
  intros Hz. unfold get, b. rewrite lookup_empty. cbn [nullish_or].
  apply FloatZero.sub_zeros_same; [|reflexivity].
  destruct (z !! key) as [v|] eqn:E; [exact (Hz key v E) | reflexivity].
Qed.

(** The loop ends on the same category when run on scores that are the
    same numbers. *)
Lemma loop_same (entries entries' : list (Expression * float)) :
  Forall2 (fun p q => fst p = fst q /\ same_number (snd p) (snd q)) entries entries' ->
  forall acc acc' : Expression * float,
    fst acc = fst acc' -> same_number (snd acc) (snd acc') ->
    fst (fold_left loop_body entries acc) = fst (fold_left loop_body entries' acc') /\
    same_number (snd (fold_left loop_body entries acc))
                (snd (fold_left loop_body entries' acc')).
Proof.
  induction 1 as [|[e s] [e' s'] rest rest' [He Hs] _ IH];
    intros [best bestScore] [best' bestScore'] Hbest Hscore;
    cbn [fold_left loop_body fst snd] in *; [auto|].
  subst e' best'.
  assert (Ht : above_threshold s (EMOTION_THRESHOLDS e)
               = above_threshold s' (EMOTION_THRESHOLDS e)).
  { destruct (EMOTION_THRESHOLDS e) as [t|]; [|reflexivity].
    cbn [above_threshold]. unfold gt.
    apply FloatZero.ltb_same; [apply FloatZero.same_number_refl | exact Hs]. }
  assert (Hg : gt s bestScore = gt s' bestScore').
  { unfold gt. apply FloatZero.ltb_same; assumption. }
  rewrite <- Ht, <- Hg.
  destruct (above_threshold s (EMOTION_THRESHOLDS e) && gt s bestScore);
    apply IH; auto.
Qed.

(** C5: a baseline never set classifies every vector as an all-zero
    baseline does. *)
Theorem uncalibrated_is_zero_baseline
    (st st' : State) (z : Blend) (V : option Blend) :
  baseline st = None ->
  baseline st' = Some z ->
  all_zero z ->
  pickEmoji st V = pickEmoji st' V.
Proof.
  intros Hst Hst' Hz. destruct V as [blend|]; [|reflexivity].
  cbn [pickEmoji]. rewrite Hst, Hst'. f_equal. symmetry.
  unfold bestExpression.
  apply loop_same; [|reflexivity|apply FloatZero.same_number_refl].
  pose proof (get_all_zero z blend) as Hget.
  unfold expressionScores. cbn [nullish_or].
  repeat first
    [ apply List.Forall2_nil
    | apply List.Forall2_cons; [split; [reflexivity | cbn [snd]] |] ].
  - apply FloatZero.Math_max_same; auto.
  - apply FloatZero.add_same; apply FloatZero.mul_same; auto.
  - apply FloatZero.Math_max_same; auto.
  - apply FloatZero.add_same; [apply FloatZero.Math_max_same|]; auto.
Qed.

(** C7: [calibrate] on an absent vector changes nothing; on a vector it
    stores exactly that vector, whatever the baseline held before. *)
Theorem calibrate_ignores_null_and_replaces (st : State) :
  calibrate None st = st /\
  forall (v : Blend),
    baseline (calibrate (Some v) st) = Some v /\
    forall (key : string), baseline (calibrate (Some v) st) ≫= (.!! key) = v !! key.
Proof.
  split; [reflexivity|]. intros v. split; [reflexivity|]. intros key. reflexivity.
Qed.

(** C8: calibrating twice with the same vector leaves the baseline of a
    single calibration, so every later classification is the same. *)
Theorem calibrate_idempotent (V : option Blend) (st : State) :
  baseline (calibrate V (calibrate V st)) = baseline (calibrate V st) /\
  forall (current : option Blend),
    pickEmoji (calibrate V (calibrate V st)) current
      = pickEmoji (calibrate V st) current.
Proof.
  destruct V as [v|]; split; try reflexivity; intros [blend|]; reflexivity.
Qed.

(** ** Ties *)

Ltac entry_cases H :=
  unfold expressionScores in H; cbn [In] in H;
  repeat match type of H with
    | _ \/ _ => destruct H as [H | H]
    | False => destruct H
    end.

(** C6, as stated, fails: smile and frown tie on the qualifying score 0.5
    and smile is the earliest of the tie, but cheeky, with 0.9, is
    selected. *)
Lemma tie_below_best_selects_neither :
  earliest_of_tie initial_state tie_below_best smile frown 0.5 0.5 /\
  pickEmoji initial_state (Some tie_below_best) = EMOJI_SET cheeky /\
  ~ every_tie_selects_earliest initial_state tie_below_best.
Proof.
  assert (Htie : earliest_of_tie initial_state tie_below_best smile frown 0.5 0.5).
  { unfold earliest_of_tie, qualifies. repeat split; try (vm_compute; tauto).
    - vm_compute. lia.
    - intros e se (Hin & _ & _) Hrank. revert Hrank.
      entry_cases Hin; inversion Hin; subst; vm_compute; lia. }
  split; [exact Htie|]. split; [reflexivity|].
  intros Hclaim. specialize (Hclaim smile frown 0.5 0.5 Htie).
  vm_compute in Hclaim. discriminate Hclaim.
Qed.

(** C6, amended: when two categories tie on a qualifying score that no
    qualifying score exceeds, the earliest category with that score is
    selected. *)
Theorem tie_at_highest_selects_earliest
    (st : State) (current : Blend) (c d : Expression) (sc sd : float) :
  earliest_of_tie st current c d sc sd ->
  is_highest st current sc ->
  pickEmoji st (Some current) = EMOJI_SET c.
Proof.
  intros (Hc & _ & _ & _ & Hfirst) Hmax.
  cbn [pickEmoji]. f_equal. unfold bestExpression.
  assert (Hlower : forall e se, qualifies st current e se ->
            rank e < rank c -> (se <? sc) = true).
  { intros e se He Hrank. apply FloatOrder.leb_neq_ltb; eauto. }
  assert (Hfloor : forall e se,
            In (e, se) (expressionScores (baseline st) current) ->
            above_threshold se (EMOTION_THRESHOLDS e) = true ->
            (se <? sc) = true \/ qualifies st current e se).
  { intros e se Hin Habove.
    destruct (0.15 <? se) eqn:E.
    - right. repeat split; assumption.
    - left. destruct Hc as (_ & _ & Hsc).
      destruct (FloatOrder.cmp_total se 0.15) as [k Hk].
      + destruct e; cbn in Habove; try discriminate; unfold gt in Habove;
          apply FloatOrder.ltb_cmp in Habove;
          eapply FloatOrder.cmp_Some_not_nan_r; eassumption.
      + reflexivity.
      + apply FloatOrder.leb_ltb_trans with 0.15; [|exact Hsc].
        apply FloatOrder.leb_cmp.
        apply FloatOrder.ltb_false_cmp in E.
        rewrite FloatOrder.cmp_antisym, Hk in E.
        destruct k; cbn in E; auto; congruence. }
  destruct Hc as (Hin & Hthr & Hsc).
  assert (Hgo : forall pre post,
            expressionScores (baseline st) current = pre ++ (c, sc) :: post ->
            (forall e se, In (e, se) pre -> rank e < rank c) ->
            fst (fold_left loop_body (expressionScores (baseline st) current)
                   (neutral, 0.15)) = c).
  { intros pre post Heq Hpre. rewrite Heq.
    rewrite (loop_picks pre post (neutral, 0.15) c sc); try assumption; [reflexivity| |].
    - intros e se He Habove.
      assert (Hin' : In (e, se) (expressionScores (baseline st) current)).
      { rewrite Heq. apply in_or_app. left. exact He. }
      destruct (Hfloor e se Hin' Habove) as [H|H]; [exact H|].
      apply (Hlower e se H). eapply Hpre. exact He.
    - intros e se He Habove.
      assert (Hin' : In (e, se) (expressionScores (baseline st) current)).
      { rewrite Heq. apply in_or_app. right. right. exact He. }
      destruct (Hfloor e se Hin' Habove) as [H|H].
      + apply FloatOrder.ltb_leb. exact H.
      + apply (Hmax e se H). }
  unfold expressionScores in Hgo.
  entry_cases Hin; inversion Hin; subst c sc.
  - apply (Hgo [] _ eq_refl). intros e se [].
  - apply (Hgo [_] _ eq_refl).
    intros e se H. entry_cases H; inversion H; cbn; lia.
  - apply (Hgo [_; _] _ eq_refl).
    intros e se H. entry_cases H; inversion H; cbn; lia.
  - apply (Hgo [_; _; _] _ eq_refl).
    intros e se H. entry_cases H; inversion H; cbn; lia.
Qed.

(** ** The empty vector *)

Lemma get_empty_nonpos (baseline_ : option Blend) (key : string) :
  (forall m, baseline_ = Some m -> nonnegative m) ->
  (get baseline_ ∅ key <=? 0) = true.
Proof.
  intros Hbase. unfold get. rewrite lookup_empty. cbn [nullish_or].
  apply FloatSign.zero_sub_nonneg.
  unfold b. destruct baseline_ as [m|].
  - destruct (m !! key) as [v|] eqn:E; [|reflexivity].
    cbn. eapply Hbase; [reflexivity | exact E].
  - rewrite lookup_empty. reflexivity.
Qed.

(** The loop stays where it is when no entry is above its threshold. *)
Lemma loop_keeps (entries : list (Expression * float)) (acc : Expression * float) :
  (forall e s, In (e, s) entries -> above_threshold s (EMOTION_THRESHOLDS e) = false) ->
  fold_left loop_body entries acc = acc.
Proof.
  revert acc. induction entries as [|[e s] rest IH]; intros [best bestScore] H; [reflexivity|].
  cbn [fold_left loop_body]. rewrite (H e s) by (left; reflexivity).
  cbn [andb]. apply IH. intros; apply H; right; assumption.
Qed.

(** C10: [blendMap] of no face is the empty object, not null, and the empty
    object is classified as neutral under every baseline whose channels are
    all at least 0. *)
Theorem empty_vector_is_neutral (st : State) :
  (forall m, baseline st = Some m -> nonnegative m) ->
  blendMap None = ∅ /\
  pickEmoji st (Some (blendMap None)) = EMOJI_SET neutral.
Proof.
  intros Hbase. split; [reflexivity|].
  change (blendMap None) with (∅ : Blend).
  cbn [pickEmoji]. f_equal. unfold bestExpression.
  rewrite loop_keeps; [reflexivity|].
  intros e s Hin.
  pose proof (get_empty_nonpos (baseline st)) as Hget.
  entry_cases Hin; inversion Hin; subst e s; cbn [above_threshold EMOTION_THRESHOLDS];
    unfold gt; apply FloatSign.nonpos_not_above; try reflexivity.
  - apply FloatSign.Math_max_nonpos; auto.
  - apply FloatSign.add_nonpos; apply FloatSign.mul_nonpos; auto;
      eexists _, _; vm_compute; reflexivity.
  - apply FloatSign.Math_max_nonpos; auto.
  - apply FloatSign.add_nonpos; [apply FloatSign.Math_max_nonpos|]; cbn [nullish_or]; auto.
Qed.


(** ** Monotonicity of the smile score *)

(** Subtraction of binary64 values is monotone in its first argument. *)
Lemma sub_mono_l (x x' y : float) :
  (x <=? x') = true -> (x' - y <? x - y) = false.
Proof.
  intros Hle. rewrite FloatAxioms.ltb_spec, !sub_spec.
  apply (FloatRound.SFsub_mono_l prec emax); try reflexivity;
    try apply Prim2SF_valid.
  - rewrite <- sub_spec. apply Prim2SF_valid.
  - rewrite <- sub_spec. apply Prim2SF_valid.
  - rewrite <- FloatAxioms.leb_spec. exact Hle.
Qed.

(** [Math.max] of two values that are not [NaN] is one of them and is at
    least both. *)
Lemma Math_max_spec (x y : float) :
  is_nan x = false -> is_nan y = false ->
  (Math_max x y = x \/ Math_max x y = y) /\
  (x <=? Math_max x y) = true /\ (y <=? Math_max x y) = true.
Proof.
  intros Hx Hy. unfold Math_max. rewrite Hx, Hy. cbn [orb].
  pose proof (FloatOrder.leb_refl x Hx) as Rx.
  pose proof (FloatOrder.leb_refl y Hy) as Ry.
  destruct (x <? y) eqn:Exy.
  - repeat split; auto. apply FloatOrder.ltb_leb. exact Exy.
  - destruct (y <? x) eqn:Eyx.
    + repeat split; auto. apply FloatOrder.ltb_leb. exact Eyx.
    + pose proof (FloatOrder.not_ltb_leb x y Hx Hy Eyx).
      pose proof (FloatOrder.not_ltb_leb y x Hy Hx Exy).
      destruct (get_sign x); repeat split; auto.
Qed.

Lemma is_nan_Math_max (x y : float) :
  is_nan (Math_max x y) = is_nan x || is_nan y.
Proof.
  unfold Math_max. destruct (is_nan x) eqn:Hx; [reflexivity|].
  destruct (is_nan y) eqn:Hy; [reflexivity|]. cbn [orb].
  destruct (x <? y), (y <? x), (get_sign x); assumption.
Qed.

(** [Math.max] is monotone in its first argument. *)
Lemma Math_max_mono_l (x x' y : float) :
  (x' <? x) = false -> (Math_max x' y <? Math_max x y) = false.
Proof.
  intros H.
  destruct (is_nan (Math_max x' y)) eqn:N'; [apply FloatOrder.ltb_nan_l; exact N'|].
  destruct (is_nan (Math_max x y)) eqn:N; [apply FloatOrder.ltb_nan_r; exact N|].
  rewrite is_nan_Math_max in N, N'.
  apply orb_false_iff in N as [Hx Hy]. apply orb_false_iff in N' as [Hx' _].
  destruct (Math_max_spec x y Hx Hy) as ([E|E] & _ & _);
    destruct (Math_max_spec x' y Hx' Hy) as (_ & Hl & Hr); rewrite E.
  - apply FloatOrder.leb_not_gt.
    apply FloatOrder.leb_trans with x'; [|exact Hl].
    apply FloatOrder.not_ltb_leb; assumption.
  - apply FloatOrder.leb_not_gt. exact Hr.
Qed.

(** A finite number is a zero or a finite value of [SpecFloat]. *)
Lemma is_finite_Prim2SF (x : float) :
  is_finite x = true -> Round.finite_or_zero (Prim2SF x).
Proof.
  unfold is_finite, is_nan, is_infinity. intros H.
  apply negb_true_iff, orb_false_iff in H as [Hnan Hinf].
  apply negb_false_iff in Hnan.
  rewrite FloatAxioms.eqb_spec in Hnan. rewrite FloatAxioms.eqb_spec, abs_spec in Hinf.
  change (Prim2SF infinity) with (S754_infinity false) in Hinf.
  destruct (Prim2SF x) as [s|s| |s m e]; cbn in *; try exact I; discriminate.
Qed.

Lemma is_finite_zero : is_finite 0 = true.
Proof. reflexivity. Qed.

(** A difference of finite numbers is not [NaN]. *)
Lemma sub_finite_not_nan (x y : float) :
  is_finite x = true -> is_finite y = true -> is_nan (x - y) = false.
Proof.
  intros Hx Hy. unfold is_nan. apply negb_false_iff.
  rewrite FloatAxioms.eqb_spec. unfold SFeqb.
  rewrite FloatOrder.SFcompare_refl; [reflexivity|].
  rewrite sub_spec.
  apply (FloatRound.SFsub_not_nan prec emax); try reflexivity;
    try apply Prim2SF_valid; apply is_finite_Prim2SF; assumption.
Qed.

Lemma get_finite_not_nan (baseline_ : option Blend) (blend : Blend) (key : string) :
  finite_channels blend ->
  (forall m, baseline_ = Some m -> finite_channels m) ->
  is_nan (get baseline_ blend key) = false.
Proof.
  intros Hblend Hbase. unfold get. apply sub_finite_not_nan.
  - destruct (blend !! key) as [v|] eqn:E; [exact (Hblend key v E) | reflexivity].
  - unfold b. destruct baseline_ as [m|].
    + destruct (m !! key) as [v|] eqn:E; [|reflexivity].
      exact (Hbase m eq_refl key v E).
    + rewrite lookup_empty. reflexivity.
Qed.

(** C9: raising the current value of mouthSmileLeft, every other channel of
    the current vector and the baseline being the same, never lowers the
    smile score: the new score is not below the old one, and it is at least
    the old one when neither is NaN, as is the case when all the channels
    are finite numbers. *)
Theorem smile_score_monotone
    (baseline_ : option Blend) (current current' : Blend) (s s' : float) :
  (forall key, key <> "mouthSmileLeft" -> current' !! key = current !! key) ->
  ((current !! "mouthSmileLeft" ?? 0) <=? (current' !! "mouthSmileLeft" ?? 0)) = true ->
  entry_score smile (expressionScores baseline_ current) = Some s ->
  entry_score smile (expressionScores baseline_ current') = Some s' ->
  (s' <? s) = false /\
  (is_nan s = false -> is_nan s' = false -> (s <=? s') = true) /\
  (finite_channels current -> finite_channels current' ->
   (forall m, baseline_ = Some m -> finite_channels m) ->
   (s <=? s') = true).
Proof.
  intros Hother Hraise Hs Hs'.
  change (Some (Math_max (get baseline_ current "mouthSmileLeft")
                         (get baseline_ current "mouthSmileRight")) = Some s) in Hs.
  change (Some (Math_max (get baseline_ current' "mouthSmileLeft")
                         (get baseline_ current' "mouthSmileRight")) = Some s') in Hs'.
  injection Hs as <-. injection Hs' as <-.
  assert (Hlt : (Math_max (get baseline_ current' "mouthSmileLeft")
                          (get baseline_ current' "mouthSmileRight")
                 <? Math_max (get baseline_ current "mouthSmileLeft")
                             (get baseline_ current "mouthSmileRight")) = false).
  { assert (Hright : get baseline_ current' "mouthSmileRight"
                     = get baseline_ current "mouthSmileRight").
    { unfold get. rewrite Hother by discriminate. reflexivity. }
    rewrite Hright. apply Math_max_mono_l.
    unfold get. apply sub_mono_l. exact Hraise. }
  split; [exact Hlt|]. split.
  - intros N N'. apply FloatOrder.not_ltb_leb; assumption.
  - intros F F' Fb. apply FloatOrder.not_ltb_leb; [| |exact Hlt];
      rewrite is_nan_Math_max, !get_finite_not_nan by assumption; reflexivity.
Qed.

(** ** Concrete runs *)

(** The scenarios the specification lists. *)
Example smile_scenario :
  pickEmoji initial_state
    (Some (<["mouthSmileLeft" := 0.30]> (<["mouthSmileRight" := 0.10]> ∅)))
  = EMOJI_SET smile.
Proof. reflexivity. Qed.

Example below_threshold_scenario :
  pickEmoji resting_state (Some (<["mouthSmileLeft" := 0.30]> ∅)) = EMOJI_SET neutral.
Proof. reflexivity. Qed.

Example surprise_scenario :
  pickEmoji initial_state
    (Some (<["jawOpen" := 0.35]> (<["mouthPucker" := 0.0]> ∅)))
  = EMOJI_SET surprise.
Proof. reflexivity. Qed.

Example tie_scenario :
  expressionScores None tie_at_best = [(smile, 0.4); (surprise, 0.4); (frown, 0); (cheeky, 0)] /\
  pickEmoji initial_state (Some tie_at_best) = EMOJI_SET smile.
Proof. split; reflexivity. Qed.

Example blendMap_overwrites :
  blendMap (Some {| categories := Some [ {| categoryName := "jawOpen"; score := 0.1 |};
                                         {| categoryName := "jawOpen"; score := 0.6 |} ] |})
  !! "jawOpen" = Some 0.6.
Proof. reflexivity. Qed.

Lemma zero_baseline_all_zero : all_zero zero_baseline.
Proof.
  intros key v H. unfold zero_baseline in H.
  apply lookup_insert_Some in H as [[_ H] | [_ H]]; [subst v; reflexivity|].
  apply lookup_insert_Some in H as [[_ H] | [_ H]]; [subst v; reflexivity|].
  rewrite lookup_empty in H. discriminate H.
Defined.

Lemma resting_state_nonnegative :
  forall m, baseline resting_state = Some m -> nonnegative m.
Proof.
  intros m [= <-] key v H.
  apply lookup_insert_Some in H as [[_ H] | [_ H]].
  - subst v. reflexivity.
  - rewrite lookup_empty in H. discriminate H.
Defined.

Lemma selection_is_the_stated_fold_witness :
  pickEmoji initial_state (Some tie_at_best) = EMOJI_SET smile /\
  pickEmoji initial_state (Some tie_at_best) <> EMOJI_SET frown.
Proof.
  destruct (selection_is_the_stated_fold initial_state tie_at_best) as [Hfold Hfloor].
  split.
  - rewrite Hfold. reflexivity.
  - apply (Hfloor frown 0).
    + right. right. left. reflexivity.
    + reflexivity.
Defined.

Lemma uncalibrated_is_zero_baseline_witness :
  pickEmoji initial_state (Some tie_at_best) = pickEmoji zero_state (Some tie_at_best).
Proof.
  apply (uncalibrated_is_zero_baseline initial_state zero_state zero_baseline).
  - reflexivity.
  - reflexivity.
  - exact zero_baseline_all_zero.
Defined.

Lemma tie_at_highest_selects_earliest_witness :
  pickEmoji initial_state (Some tie_at_best) = EMOJI_SET smile.
Proof.
  apply (tie_at_highest_selects_earliest initial_state tie_at_best smile surprise 0.4 0.4).
  - unfold earliest_of_tie, qualifies. repeat split; try (vm_compute; tauto).
    + vm_compute. lia.
    + intros e se (Hin & _ & _) Hrank. revert Hrank.
      entry_cases Hin; inversion Hin; subst; vm_compute; lia.
  - intros e se (Hin & _ & _).
    entry_cases Hin; inversion Hin; subst; vm_compute; reflexivity.
Defined.

Lemma empty_vector_is_neutral_witness :
  pickEmoji resting_state (Some (blendMap None)) = EMOJI_SET neutral.
Proof.
  apply (empty_vector_is_neutral resting_state).
  exact resting_state_nonnegative.
Defined.

Lemma smile_score_monotone_witness :
  entry_score smile (expressionScores None half_smile) = Some 0.3 /\
  entry_score smile (expressionScores None wide_smile) = Some 0.7 /\
  (0.7 <? 0.3) = false /\ (0.3 <=? 0.7) = true.
Proof.
  split; [reflexivity|]. split; [reflexivity|].
  destruct (smile_score_monotone None half_smile wide_smile 0.3 0.7) as (H1 & H2 & _).
  - intros key Hkey. unfold half_smile, wide_smile.
    rewrite !(lookup_insert_ne _ "mouthSmileLeft") by congruence. reflexivity.
  - vm_compute. reflexivity.
  - vm_compute. reflexivity.
  - vm_compute. reflexivity.
  - split; [exact H1 | exact (H2 eq_refl eq_refl)].
Defined.

(** * Further properties of the program *)

(** ** blendMap *)

(** One more category at the end is one more assignment. *)
Lemma blendMap_snoc (cats : list Category) (cat : Category) :
  blendMap (with_categories (cats ++ [cat]))
  = <[categoryName cat := score cat]> (blendMap (with_categories cats)).
Proof.
  unfold blendMap. cbn [with_categories categories_or_empty categories].
  rewrite fold_left_app. reflexivity.
Qed.





(** X3: the object of a list followed by another is the object of the second
    completed by the object of the first: later categories override. *)
Theorem blendMap_app (cats1 cats2 : list Category) :
  blendMap (with_categories (cats1 ++ cats2))
  = blendMap (with_categories cats2) ∪ blendMap (with_categories cats1).
Proof.
  induction cats2 as [|c cats2 IH] using rev_ind.
  - rewrite app_nil_r. change (blendMap (with_categories [])) with (∅ : Blend).
    rewrite (left_id_L ∅ (∪)). reflexivity.
  - rewrite app_assoc, !blendMap_snoc, IH. apply insert_union_l.
Qed.


(** ** The selected category *)

(** Scores that pass a threshold are not [NaN]. *)
Lemma above_threshold_not_nan (s : float) (t : option float) :
  above_threshold s t = true -> is_nan s = false.
Proof.
  destruct t as [t|]; [|discriminate]. cbn. unfold gt. intros H.
  apply FloatOrder.ltb_cmp in H. eapply FloatOrder.cmp_Some_not_nan_r. exact H.
Qed.

(** The best score never falls, and ends at least as high as every score
    that passes its threshold. *)
Lemma loop_bounds (entries : list (Expression * float)) (acc : Expression * float) :
  is_nan (snd acc) = false ->
  let r := fold_left loop_body entries acc in
  is_nan (snd r) = false /\
  (snd acc <=? snd r) = true /\
  forall e s, In (e, s) entries ->
    above_threshold s (EMOTION_THRESHOLDS e) = true -> (s <=? snd r) = true.
Proof.
  revert acc. induction entries as [|[e s] rest IH]; intros [best bestScore] Hnan;
    cbn [fold_left snd] in *.
  - split; [exact Hnan|]. split; [apply FloatOrder.leb_refl; exact Hnan|].
    intros e s [].
  - cbn [loop_body].
    destruct (above_threshold s (EMOTION_THRESHOLDS e)) eqn:Ht; cbn [andb].
    + pose proof (above_threshold_not_nan _ _ Ht) as Hs. unfold gt.
      destruct (bestScore <? s) eqn:Hlt.
      * destruct (IH (e, s) Hs) as (Hn & Hle & Hall). cbn [snd] in *.
        split; [exact Hn|]. split.
        -- apply FloatOrder.leb_trans with s; [|exact Hle].
           apply FloatOrder.ltb_leb. exact Hlt.
        -- intros e' s' [[= <- <-] | Hin] Habove; [exact Hle | eauto].
      * destruct (IH (best, bestScore) Hnan) as (Hn & Hle & Hall). cbn [snd] in *.
        split; [exact Hn|]. split; [exact Hle|].
        intros e' s' [[= <- <-] | Hin] Habove; [|eauto].
        apply FloatOrder.leb_trans with bestScore; [|exact Hle].
        apply FloatOrder.not_ltb_leb; assumption.
    + destruct (IH (best, bestScore) Hnan) as (Hn & Hle & Hall). cbn [snd] in *.
      split; [exact Hn|]. split; [exact Hle|].
      intros e' s' [[= <- <-] | Hin] Habove; [congruence | eauto].
Qed.

(** The category of an entry is never [neutral]. *)
Lemma entries_not_neutral (baseline_ : option Blend) (blend : Blend) (s : float) :
  ~ In (neutral, s) (expressionScores baseline_ blend).
Proof.
  unfold expressionScores. cbn [In]. intuition discriminate.
Qed.

(** Where the loop of [pickEmoji] ends: on its start, or on a category that
    qualifies; and no score that passes its threshold is above the end. *)
Lemma loop_end (st : State) (current : Blend) :
  let r := fold_left loop_body (expressionScores (baseline st) current) (neutral, 0.15) in
  (r = (neutral, 0.15) \/ (fst r <> neutral /\ qualifies st current (fst r) (snd r))) /\
  forall e s, In (e, s) (expressionScores (baseline st) current) ->
    above_threshold s (EMOTION_THRESHOLDS e) = true -> (s <=? snd r) = true.
Proof.
  pose proof (loop_result (expressionScores (baseline st) current) (neutral, 0.15)) as Hres.
  pose proof (loop_bounds (expressionScores (baseline st) current) (neutral, 0.15) eq_refl)
    as (_ & _ & Hall).
  cbv zeta in *. cbn [snd] in Hres.
  destruct (fold_left loop_body _ _) as [best bestScore]. cbn [fst snd] in *.
  split; [|exact Hall].
  destruct Hres as [Hres | (Hin & Hlt & Habove)]; [left; exact Hres|].
  right. split.
  - intros ->. exact (entries_not_neutral _ _ _ Hin).
  - repeat split; assumption.
Qed.

(** X5: a category other than neutral is selected only with a qualifying
    score that no qualifying score exceeds. *)
Theorem selected_is_highest_qualifying (st : State) (current : Blend) (c : Expression) :
  pickEmoji st (Some current) = EMOJI_SET c ->
  c <> neutral ->
  exists s, qualifies st current c s /\ is_highest st current s.
Proof.
  intros Hpick Hc. cbn [pickEmoji] in Hpick. apply EMOJI_SET_inj in Hpick.
  unfold bestExpression in Hpick.
  destruct (loop_end st current) as [Hend Hall]. cbv zeta in *.
  destruct (fold_left loop_body _ _) as [best bestScore]. cbn [fst snd] in *. subst best.
  destruct Hend as [[= -> _] | [_ Hq]]; [congruence|].
  exists bestScore. split; [exact Hq|].
  intros e se (Hin & Habove & _). eauto.
Qed.

(** X6: neutral is selected exactly when no category qualifies. *)
Theorem neutral_iff_none_qualifies (st : State) (current : Blend) :
  pickEmoji st (Some current) = EMOJI_SET neutral <->
  forall e s, ~ qualifies st current e s.
Proof.
  cbn [pickEmoji]. unfold bestExpression.
  destruct (loop_end st current) as [Hend Hall]. cbv zeta in *.
  destruct (fold_left loop_body _ _) as [best bestScore]. cbn [fst snd] in *.
  split.
  - intros Hpick e s (Hin & Habove & Hfloor). apply EMOJI_SET_inj in Hpick. subst best.
    destruct Hend as [[= ->] | [Hne _]]; [|congruence].
    specialize (Hall e s Hin Habove). apply FloatOrder.leb_not_gt in Hall. congruence.
  - intros Hnone. destruct Hend as [[= -> _] | [_ Hq]]; [reflexivity|].
    destruct (Hnone _ _ Hq).
Qed.

(** X7: only the nine channels are read, and a channel that is absent counts
    as one that holds 0. *)
Theorem only_the_channels_matter (st st' : State) (current current' : Blend) :
  (forall key, In key channels -> current !! key ?? 0 = current' !! key ?? 0) ->
  (forall key, In key channels ->
     b (baseline st) !! key ?? 0 = b (baseline st') !! key ?? 0) ->
  pickEmoji st (Some current) = pickEmoji st' (Some current').
Proof.
  intros Hcur Hbase. cbn [pickEmoji]. f_equal. unfold bestExpression. f_equal.
  assert (Hget : forall key, In key channels ->
            get (baseline st) current key = get (baseline st') current' key).
  { intros key Hkey. unfold get. rewrite (Hcur key Hkey), (Hbase key Hkey). reflexivity. }
  unfold expressionScores.
  rewrite !Hget by (unfold channels; cbn [In]; tauto). reflexivity.
Qed.

(** ** Calibrating on the vector that is classified *)

Lemma SFsub_diag (x : spec_float) :
  SF64sub x x = S754_nan \/ exists s, SF64sub x x = S754_zero s.
Proof.
  destruct x as [[]|[]| |s m e]; cbn; eauto.
  right. exists false. rewrite Z.sub_diag. reflexivity.
Qed.

Lemma sub_diag_zero_or_nan (x : float) : zero_or_nan (x - x).
Proof.
  unfold zero_or_nan, is_nan. rewrite !FloatAxioms.eqb_spec, sub_spec.
  change (Prim2SF 0) with (S754_zero false).
  destruct (SFsub_diag (Prim2SF x)) as [-> | [s ->]]; [left | right]; reflexivity.
Qed.

Lemma zero_or_nan_Math_max (x y : float) :
  zero_or_nan x -> zero_or_nan y -> zero_or_nan (Math_max x y).
Proof.
  intros [Nx | Zx] Hy.
  - left. rewrite is_nan_Math_max, Nx. reflexivity.
  - destruct Hy as [Ny | Zy].
    + left. rewrite is_nan_Math_max, Ny. apply orb_true_r.
    + right. apply FloatZero.Math_max_zeros; assumption.
Qed.

Lemma zero_or_nan_SF (x : float) :
  zero_or_nan x <-> Prim2SF x = S754_nan \/ exists s, Prim2SF x = S754_zero s.
Proof.
  unfold zero_or_nan. split.
  - intros [H | H]; [left; apply FloatOrder.is_nan_Prim2SF; exact H|].
    right. apply FloatZero.eqb_zero_Prim2SF. exact H.
  - unfold is_nan. rewrite !FloatAxioms.eqb_spec. change (Prim2SF 0) with (S754_zero false).
    intros [-> | [s ->]]; [left | right]; reflexivity.
Qed.

Lemma zero_or_nan_mul (x c : float) :
  is_finite c = true -> zero_or_nan x -> zero_or_nan (x * c).
Proof.
  intros Hc. rewrite !zero_or_nan_SF, mul_spec.
  apply is_finite_Prim2SF in Hc.
  intros [-> | [s ->]]; [left; reflexivity|].
  destruct (Prim2SF c) as [sc|sc| |sc m e]; try contradiction; cbn; eauto.
Qed.

Lemma zero_or_nan_add (x y : float) :
  zero_or_nan x -> zero_or_nan y -> zero_or_nan (x + y).
Proof.
  rewrite !zero_or_nan_SF, add_spec.
  intros [-> | [s ->]] [-> | [t ->]]; cbn; eauto.
  destruct s, t; eauto.
Qed.

(** Neither [NaN] nor a zero is above a positive bound. *)
Lemma zero_or_nan_not_above (s t : float) :
  zero_or_nan s -> (0 <? t) = true -> (t <? s) = false.
Proof.
  intros [N | Z] Ht.
  - apply FloatOrder.ltb_nan_r. exact N.
  - apply FloatSign.nonpos_not_above; [|exact Ht].
    apply FloatOrder.leb_cmp. right. apply FloatOrder.eqb_cmp. exact Z.
Qed.

(** With a vector as its own baseline the loop ends where it starts. *)
Lemma bestExpression_self (V : Blend) : bestExpression (Some V) V = neutral.
Proof.
  unfold bestExpression. rewrite loop_keeps; [reflexivity|].
  assert (Hget : forall key, zero_or_nan (get (Some V) V key)).
  { intros key. unfold get, b. apply sub_diag_zero_or_nan. }
  intros e s Hin.
  entry_cases Hin; inversion Hin; subst e s; cbn [above_threshold EMOTION_THRESHOLDS];
    unfold gt; apply zero_or_nan_not_above; try reflexivity.
  - apply zero_or_nan_Math_max; auto.
  - apply zero_or_nan_add; apply zero_or_nan_mul; auto; reflexivity.
  - apply zero_or_nan_Math_max; auto.
  - apply zero_or_nan_add; [apply zero_or_nan_Math_max|]; cbn [nullish_or]; auto.
Qed.

(** X8: the vector the baseline was calibrated on is classified as neutral,
    whatever numbers it holds and whatever the baseline was before. *)
Theorem calibrated_vector_is_neutral (st : State) (V : Blend) :
  pickEmoji (calibrate (Some V) st) (Some V) = EMOJI_SET neutral.
Proof.
  cbn [pickEmoji calibrate flash baseline]. f_equal. apply bestExpression_self.
Qed.

(** ** The smile score and the baseline *)

(** Subtraction of binary64 values is antitone in its second argument. *)
Lemma sub_mono_r (x y y' : float) :
  (y <=? y') = true -> (x - y <? x - y') = false.
Proof.
  intros Hle. rewrite FloatAxioms.ltb_spec, !sub_spec.
  apply (FloatRound.SFsub_mono_r prec emax); try reflexivity;
    try apply Prim2SF_valid.
  - rewrite <- sub_spec. apply Prim2SF_valid.
  - rewrite <- sub_spec. apply Prim2SF_valid.
  - rewrite <- FloatAxioms.leb_spec. exact Hle.
Qed.

(** X9: raising the baseline value of mouthSmileLeft, the current vector and
    every other channel of the baseline being the same, never raises the
    smile score; a baseline never set counts as the empty one. *)
Theorem smile_score_antitone_in_baseline
    (baseline_ baseline_' : option Blend) (current : Blend) (s s' : float) :
  (forall key, key <> "mouthSmileLeft" -> b baseline_' !! key = b baseline_ !! key) ->
  ((b baseline_ !! "mouthSmileLeft" ?? 0) <=? (b baseline_' !! "mouthSmileLeft" ?? 0)) = true ->
  entry_score smile (expressionScores baseline_ current) = Some s ->
  entry_score smile (expressionScores baseline_' current) = Some s' ->
  (s <? s') = false /\
  (is_nan s = false -> is_nan s' = false -> (s' <=? s) = true).
Proof.
  intros Hother Hraise Hs Hs'.
  change (Some (Math_max (get baseline_ current "mouthSmileLeft")
                         (get baseline_ current "mouthSmileRight")) = Some s) in Hs.
  change (Some (Math_max (get baseline_' current "mouthSmileLeft")
                         (get baseline_' current "mouthSmileRight")) = Some s') in Hs'.
  injection Hs as <-. injection Hs' as <-.
  assert (Hlt : (Math_max (get baseline_ current "mouthSmileLeft")
                          (get baseline_ current "mouthSmileRight")
                 <? Math_max (get baseline_' current "mouthSmileLeft")
                             (get baseline_' current "mouthSmileRight")) = false).
  { assert (Hright : get baseline_' current "mouthSmileRight"
                     = get baseline_ current "mouthSmileRight").
    { unfold get. rewrite Hother by discriminate. reflexivity. }
    rewrite Hright. apply Math_max_mono_l.
    unfold get. apply sub_mono_r. exact Hraise. }
  split; [exact Hlt|].
  intros N N'. apply FloatOrder.not_ltb_leb; assumption.
Qed.

(** ** Runs of calibrations *)

(** X10: after a run of [calibrate] calls the baseline is the last vector
    that was not null, and a run of null vectors changes nothing at all. *)
Theorem calibrate_all_last_wins (st : State) (vs : list (option Blend)) :
  (forall (before after : list (option Blend)) (v : Blend),
     vs = before ++ Some v :: after -> Forall (fun w => w = None) after ->
     baseline (calibrate_all vs st) = Some v) /\
  (Forall (fun w => w = None) vs -> calibrate_all vs st = st).
Proof.
  assert (Hnull : forall l s, Forall (fun w => w = None) l -> calibrate_all l s = s).
  { induction l as [|w l IH]; intros s Hl; [reflexivity|].
    inversion Hl as [|? ? -> Hl']; subst. cbn. apply IH. exact Hl'. }
  split; [|apply Hnull].
  intros before after v -> Hafter. unfold calibrate_all.
  rewrite fold_left_app. cbn [fold_left].
  change (fold_left _ after ?s) with (calibrate_all after s).
  rewrite Hnull by exact Hafter. reflexivity.
Qed.

(** ** The page *)

Ltac settle := cbn; intuition (try discriminate; try lia; try congruence).

(** Every step keeps the page consistent. *)
Lemma step_consistent (e : Event) (a a' : App) :
  consistent a -> step e a = Some a' -> consistent a'.
Proof.
  unfold consistent. intros (Hrun & Hcam & Hle & Hone & Hbusy) Hstep.
  destruct a as [st v l r sd cd p n d al].
  cbn [running video landmarker phase scheduled btnStart_disabled] in *.
  destruct e as [|ok|ok f|f|f]; cbn in Hstep.
  - destruct sd; [discriminate|]. injection Hstep as <-.
    assert (n = 0%nat) as ->.
    { destruct n as [|[|n]]; [reflexivity| |lia]. destruct (Hone eq_refl) as (_ & [=] & _). }
    assert (p = Idle) as ->.
    { destruct p; try reflexivity; destruct Hbusy as [[=] _]; discriminate. }
    settle.
  - destruct p; try discriminate. injection Hstep as <-.
    destruct (Hbusy ltac:(discriminate)) as [-> ->].
    destruct ok; settle.
  - destruct p; try discriminate. injection Hstep as <-.
    destruct (Hbusy ltac:(discriminate)) as [-> ->].
    specialize (Hcam eq_refl). subst l.
    destruct ok; [destruct f|]; settle.
  - destruct cd; [discriminate|]. injection Hstep as <-.
    unfold btnCalibrate_onclick. cbn [landmarker video].
    destruct (negb l || negb v); [|destruct f]; settle.
  - destruct n as [|n]; [discriminate|].
    assert (n = 0%nat) as -> by lia.
    destruct (Hone eq_refl) as (-> & -> & ->).
    destruct (Hrun eq_refl) as [-> ->].
    destruct f; cbn in Hstep; injection Hstep as <-; settle.
Qed.

Lemma boot_consistent (calibrate_disabled : bool) : consistent (boot calibrate_disabled).
Proof.
  unfold consistent, boot. settle.
Qed.

Lemma run_consistent (es : list Event) (a a' : App) :
  consistent a -> run es a = Some a' -> consistent a'.
Proof.
  revert a. induction es as [|e es IH]; intros a Ha Hrun; cbn in Hrun.
  - injection Hrun as <-. exact Ha.
  - destruct (step e a) as [a1|] eqn:E; [|discriminate].
    apply (IH a1); [|exact Hrun]. eapply step_consistent; eassumption.
Qed.

Lemma run_app (es1 es2 : list Event) (a : App) :
  run (es1 ++ es2) a = match run es1 a with Some a1 => run es2 a1 | None => None end.
Proof.
  revert a. induction es1 as [|e es1 IH]; intros a; cbn; [reflexivity|].
  destruct (step e a); [apply IH | reflexivity].
Qed.

(** X11: in every state the page reaches, a running loop has its camera and
    its model, at most one call of [loop] is scheduled, and while one is
    scheduled the start button is disabled: the loop is never started
    twice. *)
Theorem page_stays_consistent (calibrate_disabled : bool) (es : list Event) (a : App) :
  run es (boot calibrate_disabled) = Some a ->
  (running a = true -> video a = true /\ landmarker a = true) /\
  (scheduled a <= 1)%nat /\
  (scheduled a = 1%nat -> running a = true /\ btnStart_disabled a = true).
Proof.
  intros Hrun.
  destruct (run_consistent es _ a (boot_consistent calibrate_disabled) Hrun)
    as (H1 & _ & H3 & H4 & _).
  split; [exact H1|]. split; [exact H3|].
  intros Hs. destruct (H4 Hs) as (? & ? & _). auto.
Qed.

(** X12: once the loop is scheduled, a frame whose detection returns draws
    exactly one glyph, the one [pickEmoji] gives for the detected face under
    the baseline of the moment, and schedules the next frame: the guard on
    [video] and [landmarker] never skips a frame. *)
Theorem frame_draws_the_picked_glyph
    (calibrate_disabled : bool) (es : list Event) (a : App) (face : option Blendshapes) :
  run es (boot calibrate_disabled) = Some a ->
  scheduled a = 1%nat ->
  exists a',
    step (AnimationFrame (Detected face)) a = Some a' /\
    drawn a' = drawn a ++ [pickEmoji (core a) (Some (blendMap face))] /\
    scheduled a' = 1%nat /\ running a' = true /\ core a' = core a.
Proof.
  intros Hrun Hs.
  destruct (run_consistent es _ a (boot_consistent calibrate_disabled) Hrun)
    as (H1 & _ & _ & H4 & _).
  destruct (H4 Hs) as (Hr & _ & _). destruct (H1 Hr) as [Hv Hl].
  destruct a as [st v l r sd cd p n d al]. cbn in *. subst.
  eexists. split; [reflexivity|]. cbn. auto.
Qed.

(** X13: a click on the calibrate button followed by a frame that detects
    the same face draws the neutral glyph, and the baseline is then the
    object [blendMap] makes of that face. *)
Theorem calibrate_then_same_face_is_neutral
    (calibrate_disabled : bool) (es : list Event) (a a' : App) (face : option Blendshapes) :
  run es (boot calibrate_disabled) = Some a ->
  run [CalibrateClicked (Detected face); AnimationFrame (Detected face)] a = Some a' ->
  last (drawn a') = Some (EMOJI_SET neutral) /\
  baseline (core a') = Some (blendMap face).
Proof.
  intros Hrun Hstep.
  destruct (run_consistent es _ a (boot_consistent calibrate_disabled) Hrun)
    as (H1 & _ & H3 & H4 & _).
  destruct a as [st v l r sd cd p n d al]. cbn in H1, H3, H4, Hstep.
  destruct cd; [discriminate|].
  assert (Hn : n = 1%nat).
  { destruct n as [|[|n]]; [|reflexivity|lia].
    unfold btnCalibrate_onclick in Hstep. cbn in Hstep.
    destruct (negb l || negb v); discriminate. }
  destruct (H4 Hn) as (-> & _ & _). destruct (H1 eq_refl) as [-> ->]. subst n.
  cbn in Hstep. injection Hstep as <-.
  split; [|reflexivity].
  cbn [drawn requestAnimationFrame drawEmoji set_scheduled set_core].
  rewrite last_snoc. f_equal. f_equal. apply bestExpression_self.
Qed.

(** X14: a click on the calibrate button with no face in view, once camera
    and model are in place, still calibrates: the message is flashed and
    the baseline becomes the empty object, under which every vector is
    classified as before any calibration. *)
Theorem calibrating_without_a_face (a : App) (face : option Blendshapes) :
  video a = true -> landmarker a = true ->
  categories_or_empty face = [] ->
  baseline (core (btnCalibrate_onclick (Detected face) a)) = Some ∅ /\
  flashed (core (btnCalibrate_onclick (Detected face) a))
    = flashed (core a) ++ ["Calibrated! Try smiling or opening your mouth."] /\
  forall V : option Blend,
    pickEmoji (core (btnCalibrate_onclick (Detected face) a)) V = pickEmoji initial_state V.
Proof.
  intros Hv Hl Hface. unfold btnCalibrate_onclick. rewrite Hv, Hl. cbn [negb orb].
  assert (blendMap face = ∅) as -> by (unfold blendMap; rewrite Hface; reflexivity).
  split; [reflexivity|]. split; [reflexivity|].
  intros [blend|]; reflexivity.
Qed.

(** A stopped page stays stopped and draws nothing more. *)
Lemma step_stopped (e : Event) (a a' : App) :
  stopped a -> step e a = Some a' -> stopped a' /\ drawn a' = drawn a.
Proof.
  unfold stopped. intros (Hs & Hd & Hp) Hstep.
  destruct a as [st v l r sd cd p n d al]. cbn in Hs, Hd, Hp. subst n sd p.
  destruct e as [|ok|ok f|f|f]; cbn in Hstep; try discriminate.
  destruct cd; [discriminate|]. injection Hstep as <-.
  unfold btnCalibrate_onclick. cbn [landmarker video].
  destruct (negb l || negb v); [|destruct f]; cbn; auto.
Qed.

Lemma run_stopped (es : list Event) (a a' : App) :
  stopped a -> run es a = Some a' -> stopped a' /\ drawn a' = drawn a.
Proof.
  revert a. induction es as [|e es IH]; intros a Ha Hrun; cbn in Hrun.
  - injection Hrun as <-. auto.
  - destruct (step e a) as [a1|] eqn:E; [|discriminate].
    destruct (step_stopped e a a1 Ha E) as [Ha1 Hd1].
    destruct (IH a1 Ha1 Hrun) as [Ha' Hd']. split; [exact Ha'|]. congruence.
Qed.

(** X15: an exception out of a frame ends the animation for good: no frame
    is scheduled again and no glyph is drawn again, whatever is clicked,
    since the start button stays disabled. *)
Theorem frame_exception_stops_the_loop
    (calibrate_disabled : bool) (es es' : list Event) (a a1 a2 : App) :
  run es (boot calibrate_disabled) = Some a ->
  step (AnimationFrame Throws) a = Some a1 ->
  run es' a1 = Some a2 ->
  scheduled a2 = 0%nat /\ btnStart_disabled a2 = true /\ drawn a2 = drawn a.
Proof.
  intros Hrun Hstep Hrest.
  destruct (run_consistent es _ a (boot_consistent calibrate_disabled) Hrun)
    as (H1 & _ & H3 & H4 & _).
  destruct a as [st v l r sd cd p n d al]. cbn in H1, H3, H4, Hstep.
  destruct n as [|n]; [discriminate|].
  assert (n = 0%nat) as -> by lia.
  destruct (H4 eq_refl) as (-> & -> & ->). destruct (H1 eq_refl) as [-> ->].
  cbn in Hstep. injection Hstep as <-.
  match type of Hrest with run _ ?s = _ =>
    assert (Hst : stopped s) by (repeat split)
  end.
  destruct (run_stopped es' _ a2 Hst Hrest) as [(Hs & Hd & _) Hdrawn].
  auto.
Qed.

(** ** Concrete runs of the further properties *)



Lemma selected_is_highest_qualifying_witness :
  exists s, qualifies initial_state tie_at_best smile s /\ is_highest initial_state tie_at_best s.
Proof.
  apply (selected_is_highest_qualifying initial_state tie_at_best smile).
  - reflexivity.
  - discriminate.
Defined.

Lemma only_the_channels_matter_witness :
  pickEmoji initial_state (Some bare_smile) = pickEmoji off_channel_state (Some padded_smile).
Proof.
  apply (only_the_channels_matter initial_state off_channel_state bare_smile padded_smile).
  - intros key Hkey. unfold channels in Hkey. cbn [In] in Hkey.
    repeat (destruct Hkey as [<- | Hkey]; [vm_compute; reflexivity|]). destruct Hkey.
  - intros key Hkey. unfold channels in Hkey. cbn [In] in Hkey.
    repeat (destruct Hkey as [<- | Hkey]; [vm_compute; reflexivity|]). destruct Hkey.
Defined.

Lemma smile_score_antitone_in_baseline_witness :
  (0.3 - 0.1 <? 0.1 - 0) = false /\ (0.1 - 0 <=? 0.3 - 0.1) = true.
Proof.
  destruct (smile_score_antitone_in_baseline
              (Some (<["mouthSmileLeft" := 0.1]> ∅)) (Some (<["mouthSmileLeft" := 0.2]> ∅))
              half_smile (0.3 - 0.1) (0.1 - 0)) as [H1 H2].
  - intros key Hkey. cbn [b].
    rewrite !(lookup_insert_ne _ "mouthSmileLeft") by congruence. reflexivity.
  - vm_compute. reflexivity.
  - vm_compute. reflexivity.
  - vm_compute. reflexivity.
  - split; [exact H1 | exact (H2 eq_refl eq_refl)].
Defined.

Lemma calibrate_all_last_wins_witness :
  baseline (calibrate_all [Some half_smile; None; Some wide_smile; None] initial_state)
  = Some wide_smile.
Proof.
  apply (proj1 (calibrate_all_last_wins initial_state
                  [Some half_smile; None; Some wide_smile; None])
               [Some half_smile; None] [None] wide_smile).
  - reflexivity.
  - repeat constructor.
Defined.

Lemma page_stays_consistent_witness :
  match run session (boot true) with
  | Some a => (scheduled a <= 1)%nat /\ (running a = true -> video a = true)
  | None => False
  end.
Proof.
  destruct (run session (boot true)) as [a|] eqn:E; [|vm_compute in E; discriminate E].
  destruct (page_stays_consistent true session a E) as (H1 & H2 & _).
  split; [exact H2|]. intros Hr. exact (proj1 (H1 Hr)).
Defined.

Lemma frame_draws_the_picked_glyph_witness :
  match run warm_up (boot true) with
  | Some a =>
      exists a', step (AnimationFrame (Detected smiling)) a = Some a' /\
                 drawn a' = drawn a ++ [EMOJI_SET smile]
  | None => False
  end.
Proof.
  destruct (run warm_up (boot true)) as [a|] eqn:E; [|vm_compute in E; discriminate E].
  assert (Hs : scheduled a = 1%nat /\ core a = initial_state).
  { vm_compute in E. injection E as <-. split; reflexivity. }
  destruct Hs as [Hs Hc].
  destruct (frame_draws_the_picked_glyph true warm_up a smiling E Hs)
    as (a' & Hstep & Hdrawn & _).
  exists a'. split; [exact Hstep|]. rewrite Hdrawn, Hc. reflexivity.
Defined.

Lemma calibrate_then_same_face_is_neutral_witness :
  match run warm_up (boot true) with
  | Some a =>
      match run [CalibrateClicked (Detected smiling); AnimationFrame (Detected smiling)] a with
      | Some a' => last (drawn a') = Some (EMOJI_SET neutral)
      | None => False
      end
  | None => False
  end.
Proof.
  destruct (run warm_up (boot true)) as [a|] eqn:E; [|vm_compute in E; discriminate E].
  destruct (run _ a) as [a'|] eqn:E'.
  - exact (proj1 (calibrate_then_same_face_is_neutral true warm_up a a' smiling E E')).
  - vm_compute in E. injection E as <-. vm_compute in E'. discriminate E'.
Defined.

Lemma calibrating_without_a_face_witness :
  match run warm_up (boot true) with
  | Some a => baseline (core (btnCalibrate_onclick (Detected None) a)) = Some ∅
  | None => False
  end.
Proof.
  destruct (run warm_up (boot true)) as [a|] eqn:E; [|vm_compute in E; discriminate E].
  assert (Hr : video a = true /\ landmarker a = true).
  { vm_compute in E. injection E as <-. split; reflexivity. }
  exact (proj1 (calibrating_without_a_face a None (proj1 Hr) (proj2 Hr) eq_refl)).
Defined.

Lemma frame_exception_stops_the_loop_witness :
  match run (warm_up ++ [AnimationFrame Throws; StartClicked]) (boot true) with
  | Some a => True
  | None =>
      match run (warm_up ++ [AnimationFrame Throws; CalibrateClicked (Detected smiling)])
                (boot true) with
      | Some a => scheduled a = 0%nat /\ drawn a = [EMOJI_SET smile; EMOJI_SET smile]
      | None => False
      end
  end.
Proof.
  destruct (run (warm_up ++ [AnimationFrame Throws; StartClicked]) (boot true)); [exact I|].
  rewrite run_app.
  destruct (run warm_up (boot true)) as [a|] eqn:E; [|vm_compute in E; discriminate E].
  assert (Hd : drawn a = [EMOJI_SET smile; EMOJI_SET smile]).
  { vm_compute in E. injection E as <-. reflexivity. }
  cbn [run].
  destruct (step (AnimationFrame Throws) a) as [a1|] eqn:E1.
  - destruct (step (CalibrateClicked (Detected smiling)) a1) as [a2|] eqn:E2.
    + destruct (frame_exception_stops_the_loop true warm_up
                  [CalibrateClicked (Detected smiling)] a a1 a2 E E1)
        as (H1 & _ & H3).
      * cbn [run]. rewrite E2. reflexivity.
      * split; [exact H1|]. rewrite H3. exact Hd.
    + vm_compute in E. injection E as <-. vm_compute in E1. injection E1 as <-.
      vm_compute in E2. discriminate E2.
  - vm_compute in E. injection E as <-. vm_compute in E1. discriminate E1.
Defined.
